(** * Address resolution over the asset graph (package graph)

    A shallow embedding of [UpsertAddress], [NamesToAddrs],
    [generatePairsFromAddrMap], [UpsertA], [UpsertAAAA], [addrRecord] and
    [buildIPAddress], together with the two plugins that feed the graph
    (sitedossier and wayback).

    The asset store behind [g.DB] is an interface of four operations.  A
    program of this package is embedded as a tree of store calls ([Prog]):
    every call the Go code makes is a node, and the continuation receives
    what the store answered.  [run] executes such a tree against a store
    and records the calls made, so that statements about which calls are
    made, in which order and how often, are statements about the tree. *)

From stdpp Require Import base gmap strings list pretty.
From Stdlib Require Import ZArith Lia Ascii.

Local Open Scope string_scope.
Local Open Scope list_scope.
Local Open Scope Z_scope.

(** ** The address library (net/netip)

    [netip.ParseAddr], [Addr.Is4], [Addr.Is6] and [Addr.String] belong to
    the Go standard library.  They are taken as an interface: everything
    below holds for every parser. [ParseAddr s = None] stands for a
    non-nil error. *)

Class NetIP := {
  Addr : Type;
  Addr_eq_dec :: EqDecision Addr;
  ParseAddr : string → option Addr;
  Is4 : Addr → bool;
  Is6 : Addr → bool;
  AddrString : Addr → string
}.

(** ** The string set (github.com/caffix/stringset)

    [stringset.Set] is a library outside this repository.  A set holds an
    element under a key derived from it (the library folds the case of
    what it is given); [setKey] is that derivation, and nothing is
    assumed of it. *)

Class StringSet := { setKey : string → string }.

Section Graph.
Context {netip : NetIP} {strset : StringSet}.

(** ** Data model (open-asset-model, asset-db/types) *)

(** [domain.FQDN]. *)
Record FQDN := { Name : string }.

(** [network.IPAddress]; the Go field [Type] is [Type_] here. *)
Record IPAddress := { Address : Addr; Type_ : string }.

(** The dynamic type behind an [oam.Asset] interface value.  [OOther]
    stands for every asset kind this package does not inspect. *)
Inductive OAMAsset :=
| OFQDN (f : FQDN)
| OIPAddress (a : IPAddress)
| OOther (kind : string).

(** [types.Asset]; the Go field [Asset] is [Content] here. *)
Record Asset := { ID : string; Content : OAMAsset }.

(** [types.Relation]; the Go field [Type] is [RelType] here. *)
Record Relation := { RelType : string; FromAsset : Asset; ToAsset : Asset }.

(** [NameAddrPair]; the Go fields [FQDN] and [Addr] carry a prefix. *)
Record NameAddrPair := { PairFQDN : FQDN; PairAddr : IPAddress }.

#[global] Instance FQDN_eq_dec : EqDecision FQDN.
Proof. solve_decision. Defined.
#[global] Instance IPAddress_eq_dec : EqDecision IPAddress.
Proof. solve_decision. Defined.
#[global] Instance OAMAsset_eq_dec : EqDecision OAMAsset.
Proof. solve_decision. Defined.
#[global] Instance Asset_eq_dec : EqDecision Asset.
Proof. solve_decision. Defined.
#[global] Instance Relation_eq_dec : EqDecision Relation.
Proof. solve_decision. Defined.

(** Errors.  [errors_New msg] is a value made by [errors.New] in this
    package; [StoreError] is an error value that a store call returned. *)
Inductive error :=
| errors_New (msg : string)
| StoreError (code : string).

(** A Go result pair [(v, err)]: [Ok v] when [err == nil], with [v] the
    value returned (a pointer returned without error is not nil). *)
Inductive result (A : Type) :=
| Ok (v : A)
| Err (e : error).
#[global] Arguments Ok {A} v.
#[global] Arguments Err {A} e.

(** ** Programs over the store interface

    One constructor per operation of [g.DB]; [since] is the time cutoff
    ([time.Time], as a number). The payload of [Create] is a pointer and
    may be nil ([None]). *)
Inductive Prog (A : Type) : Type :=
| Ret (a : A)
| FindByContent (tmpl : OAMAsset) (since : Z)
    (k : result (list Asset) → Prog A)
| FindById (id : string) (since : Z) (k : result Asset → Prog A)
| OutgoingRelations (a : Asset) (since : Z) (reltypes : list string)
    (k : result (list Relation) → Prog A)
| Create (source : option Asset) (relation : string)
    (discovered : option OAMAsset) (k : result Asset → Prog A).
#[global] Arguments Ret {A} a.
#[global] Arguments FindByContent {A} tmpl since k.
#[global] Arguments FindById {A} id since k.
#[global] Arguments OutgoingRelations {A} a since reltypes k.
#[global] Arguments Create {A} source relation discovered k.

Fixpoint bind {A B : Type} (m : Prog A) (f : A → Prog B) : Prog B :=
  match m with
  | Ret a => f a
  | FindByContent t s k => FindByContent t s (λ r, bind (k r) f)
  | FindById i s k => FindById i s (λ r, bind (k r) f)
  | OutgoingRelations a s ts k => OutgoingRelations a s ts (λ r, bind (k r) f)
  | Create p rel d k => Create p rel d (λ r, bind (k r) f)
  end.

#[global] Instance Prog_ret : MRet Prog := @Ret.
#[global] Instance Prog_bind : MBind Prog := λ A B f m, bind m f.

(** ** Stores and runs *)

(** A store: the three lookups read the state, [Create] may change it. *)
Record Store := {
  St : Type;
  findByContent : St → OAMAsset → Z → result (list Asset);
  findById : St → string → Z → result Asset;
  outgoingRelations : St → Asset → Z → list string → result (list Relation);
  create : St → option Asset → string → option OAMAsset → St * result Asset
}.

(** A call together with the store's answer. *)
Inductive event :=
| EFindByContent (tmpl : OAMAsset) (since : Z) (r : result (list Asset))
| EFindById (id : string) (since : Z) (r : result Asset)
| EOutgoingRelations (a : Asset) (since : Z) (reltypes : list string)
    (r : result (list Relation))
| ECreate (source : option Asset) (relation : string)
    (discovered : option OAMAsset) (r : result Asset).

(** [run db p s]: the value [p] returns, the final state of the store and
    the calls made, oldest first. *)
Fixpoint run {A : Type} (db : Store) (p : Prog A) (s : St db)
  : A * St db * list event :=
  match p with
  | Ret a => (a, s, [])
  | FindByContent t c k =>
      let r := findByContent db s t c in
      let '(a, s', tr) := run db (k r) s in
      (a, s', EFindByContent t c r :: tr)
  | FindById i c k =>
      let r := findById db s i c in
      let '(a, s', tr) := run db (k r) s in
      (a, s', EFindById i c r :: tr)
  | OutgoingRelations x c ts k =>
      let r := outgoingRelations db s x c ts in
      let '(a, s', tr) := run db (k r) s in
      (a, s', EOutgoingRelations x c ts r :: tr)
  | Create p rel d k =>
      let '(s1, r) := create db s p rel d in
      let '(a, s', tr) := run db (k r) s1 in
      (a, s', ECreate p rel d r :: tr)
  end.

Definition value {A} (db : Store) (p : Prog A) (s : St db) : A :=
  (run db p s).1.1.
Definition final {A} (db : Store) (p : Prog A) (s : St db) : St db :=
  (run db p s).1.2.
Definition trace {A} (db : Store) (p : Prog A) (s : St db) : list event :=
  (run db p s).2.

(** ** buildIPAddress, UpsertAddress *)

Definition buildIPAddress (addr : string) : option IPAddress :=
  match ParseAddr addr with
  | None => None
  | Some ip =>
      if Is4 ip then Some {| Address := ip; Type_ := "IPv4" |}
      else if Is6 ip then Some {| Address := ip; Type_ := "IPv6" |}
      else None
  end.

(** [return g.DB.Create(nil, "", buildIPAddress(addr))] *)
Definition UpsertAddress (addr : string) : Prog (result Asset) :=
  Create None "" (OIPAddress <$> buildIPAddress addr) Ret.

(** ** NamesToAddrs

    The loops of the function are the fixpoints below, in the order of
    the source.  The context argument is not used by the function, and
    closing the string sets ([Close], also the deferred one) releases
    them without a bearing on the result; both are left out. *)

(** Lines 41-48: look every name up once; keep the first asset found. *)
Fixpoint findNames (since : Z) (names : list string) (filter : gset string)
    (fqdns : list Asset) : Prog (list Asset) :=
  match names with
  | [] => Ret fqdns
  | name :: rest =>
      if decide (setKey name ∈ filter) then findNames since rest filter fqdns
      else
        FindByContent (OFQDN {| Name := name |}) since (λ r,
          match r with
          | Ok (a0 :: _) =>
              findNames since rest ({[setKey name]} ∪ filter) (fqdns ++ [a0])
          | _ => findNames since rest filter fqdns
          end)
  end.

(** Lines 72-77: the first relation whose target resolves replaces
    [cur]; when none resolves [cur] stays. *)
Fixpoint followFirst (since : Z) (rels : list Relation) (cur : Asset)
  : Prog Asset :=
  match rels with
  | [] => Ret cur
  | rel :: rest =>
      FindById (ID (ToAsset rel)) since (λ r,
        match r with
        | Ok found => Ret found
        | Err _ => followFirst since rest cur
        end)
  end.

(** The relation types queried at hop [i] (lines 66-69). *)
Definition reltypesAt (i : Z) : list string :=
  ["cname_record"] ++ (if i =? 1 then ["srv_record"] else []).

(** Lines 65-81: [for i := 1; i <= 10; i++].  [fuel] bounds the unfolding
    of the loop; [chainLoop_fuel] shows that ten is enough. *)
Fixpoint chainLoop (fuel : nat) (since : Z) (i : Z) (cur : Asset)
  : Prog Asset :=
  match fuel with
  | O => Ret cur
  | S fuel' =>
      if i <=? 10 then
        OutgoingRelations cur since (reltypesAt i) (λ r,
          match r with
          | Ok (rel :: rels) =>
              cur' ← followFirst since (rel :: rels) cur;
              chainLoop fuel' since (i + 1) cur'
          | _ => Ret cur
          end)
      else Ret cur
  end.

Definition aliasChain (since : Z) (a : Asset) : Prog Asset :=
  chainLoop 10 since 1 a.

(** The local type [target]. *)
Record target := { fqdn : FQDN; asset : Asset }.

(** Lines 61-88. *)
Fixpoint buildTargets (since : Z) (fqdns : list Asset) (targets : list target)
  : Prog (list target) :=
  match fqdns with
  | [] => Ret targets
  | a :: rest =>
      match Content a with
      | OFQDN f =>
          cur ← aliasChain since a;
          buildTargets since rest (targets ++ [{| fqdn := f; asset := cur |}])
      | _ => buildTargets since rest targets
      end
  end.

(** [if _, found := nameAddrMap[name]; !found { nameAddrMap[name] = New() }] *)
Definition ensureSet (name : string) (m : gmap string (gset string))
  : gmap string (gset string) :=
  match m !! name with
  | Some _ => m
  | None => <[name := ∅]> m
  end.

(** [nameAddrMap[name].Insert(s)] *)
Definition insertAddr (name s : string) (m : gmap string (gset string))
  : gmap string (gset string) :=
  alter (λ ss, {[setKey s]} ∪ ss) name m.

(** Lines 98-111. *)
Fixpoint addrLoop (since : Z) (name : string) (rels : list Relation)
    (nameAddrMap : gmap string (gset string))
  : Prog (gmap string (gset string)) :=
  match rels with
  | [] => Ret nameAddrMap
  | rel :: rest =>
      let m := ensureSet name nameAddrMap in
      FindById (ID (ToAsset rel)) since (λ r,
        match r with
        | Err _ => addrLoop since name rest m
        | Ok found =>
            match Content found with
            | OIPAddress a =>
                addrLoop since name rest
                  (insertAddr name (AddrString (Address a)) m)
            | _ => addrLoop since name rest m
            end
        end)
  end.

(** Lines 94-113. *)
Fixpoint aggregate (since : Z) (targets : list target)
    (nameAddrMap : gmap string (gset string))
  : Prog (gmap string (gset string)) :=
  match targets with
  | [] => Ret nameAddrMap
  | tar :: rest =>
      OutgoingRelations (asset tar) since ["a_record"; "aaaa_record"] (λ r,
        match r with
        | Ok (rel :: rels) =>
            m ← addrLoop since (Name (fqdn tar)) (rel :: rels) nameAddrMap;
            aggregate since rest m
        | _ => aggregate since rest nameAddrMap
        end)
  end.

(** The family tag given to a parsed address (lines 132-137). *)
Definition tagAddress (ip : Addr) : IPAddress :=
  {| Address := ip;
     Type_ := if Is4 ip then "IPv4" else if Is6 ip then "IPv6" else "" |}.

(** Lines 130-143 for one name. *)
Definition pairsOf (name : string) (addrs : list string) : list NameAddrPair :=
  addr ← addrs;
  match ParseAddr addr with
  | Some ip => [{| PairFQDN := {| Name := name |}; PairAddr := tagAddress ip |}]
  | None => []
  end.

(** Go leaves the iteration order of a map and of [set.Slice()] open;
    [map_to_list] and [elements] fix one. *)
Definition generatePairsFromAddrMap (addrMap : gmap string (gset string))
  : list NameAddrPair :=
  '(name, set) ← map_to_list addrMap;
  pairsOf name (elements set).

Definition errNoNames : error := errors_New "no names to query".
Definition errNoTargets : error := errors_New "no targets to query".
Definition errNoPairs : error := errors_New "no pairs to process".
Definition errNoAddrs : error := errors_New "no addresses were discovered".

Definition NamesToAddrs (since : Z) (names : list string)
  : Prog (result (list NameAddrPair)) :=
  fqdns ← findNames since names ∅ [];
  if (length fqdns =? 0)%nat then Ret (Err errNoNames) else
  targets ← buildTargets since fqdns [];
  if (length targets =? 0)%nat then Ret (Err errNoTargets) else
  nameAddrMap ← aggregate since targets ∅;
  if (size nameAddrMap =? 0)%nat then Ret (Err errNoPairs) else
  let pairs := generatePairsFromAddrMap nameAddrMap in
  if (length pairs =? 0)%nat then Ret (Err errNoAddrs) else
  Ret (Ok pairs).

(** ** UpsertA, UpsertAAAA, addrRecord

    [UpsertFQDN] is defined in another file of the package; [addrRecord]
    is embedded over an arbitrary implementation of it. *)
Section AddrRecord.
Variable UpsertFQDN : string → Prog (result Asset).

Definition errBuild : error := errors_New "failed to build the OAM IPAddress".

Definition addrRecord (fqdn addr rrtype : string) : Prog (result Asset) :=
  r ← UpsertFQDN fqdn;
  match r with
  | Err err => Ret (Err err)
  | Ok name =>
      match buildIPAddress addr with
      | None => Ret (Err errBuild)
      | Some ip => Create (Some name) rrtype (Some (OIPAddress ip)) Ret
      end
  end.

Definition UpsertA (fqdn addr : string) : Prog (result Asset) :=
  addrRecord fqdn addr "a_record".

Definition UpsertAAAA (fqdn addr : string) : Prog (result Asset) :=
  addrRecord fqdn addr "aaaa_record".

End AddrRecord.

(** ** Observations on programs and traces *)

(** The four operations of the store. *)
Inductive kind := KFindByContent | KFindById | KOutgoingRelations | KCreate.

Definition kindOf (e : event) : kind :=
  match e with
  | EFindByContent _ _ _ => KFindByContent
  | EFindById _ _ _ => KFindById
  | EOutgoingRelations _ _ _ _ => KOutgoingRelations
  | ECreate _ _ _ _ => KCreate
  end.

(** [Uses K p]: whatever the store answers, [p] calls only operations of
    the kinds in [K]. *)
Inductive Uses {A : Type} (K : kind → Prop) : Prog A → Prop :=
| Uses_Ret a : Uses K (Ret a)
| Uses_FindByContent t c k :
    K KFindByContent → (∀ r, Uses K (k r)) → Uses K (FindByContent t c k)
| Uses_FindById i c k :
    K KFindById → (∀ r, Uses K (k r)) → Uses K (FindById i c k)
| Uses_OutgoingRelations a c ts k :
    K KOutgoingRelations → (∀ r, Uses K (k r)) →
    Uses K (OutgoingRelations a c ts k)
| Uses_Create p rel d k :
    K KCreate → (∀ r, Uses K (k r)) → Uses K (Create p rel d k).

(** A program that calls only the three lookups. *)
Definition ReadOnly {A : Type} (p : Prog A) : Prop :=
  Uses (λ k, k ≠ KCreate) p.

(** The kinds of call of the two walks: by identifier and by source. *)
Definition walkKinds (k : kind) : Prop :=
  k = KFindById ∨ k = KOutgoingRelations.

Definition isCreate (e : event) : bool :=
  match e with ECreate _ _ _ _ => true | _ => false end.

Definition isOutgoing (e : event) : bool :=
  match e with EOutgoingRelations _ _ _ _ => true | _ => false end.

(** A lookup by identifier that succeeded: an edge was followed. *)
Definition isFollow (e : event) : bool :=
  match e with EFindById _ _ (Ok _) => true | _ => false end.

(** A store call that failed, and the error it gave. *)
Definition failure (e : event) : option error :=
  match e with
  | EFindByContent _ _ (Err x) | EFindById _ _ (Err x)
  | EOutgoingRelations _ _ _ (Err x) | ECreate _ _ _ (Err x) => Some x
  | _ => None
  end.

Fixpoint countIf (p : event → bool) (tr : list event) : nat :=
  match tr with
  | [] => O
  | e :: rest => ((if p e then 1 else 0) + countIf p rest)%nat
  end.

(** The asset a walk stands on after the calls of [tr], from [cur]. *)
Fixpoint lastReached (cur : Asset) (tr : list event) : Asset :=
  match tr with
  | [] => cur
  | EFindById _ _ (Ok a) :: rest => lastReached a rest
  | _ :: rest => lastReached cur rest
  end.

(** A name the store can find: the lookup succeeds with an asset. *)
Definition findable (db : Store) (s : St db) (since : Z) (name : string)
  : bool :=
  match findByContent db s (OFQDN {| Name := name |}) since with
  | Ok (_ :: _) => true
  | _ => false
  end.

(** No edge out of [a] of the given types: the query fails or is empty. *)
Definition noEdges (db : Store) (s : St db) (since : Z) (a : Asset)
    (reltypes : list string) : Prop :=
  ∀ rel rels, outgoingRelations db s a since reltypes ≠ Ok (rel :: rels).

(** The (name, address text) combinations of a map, as
    [generatePairsFromAddrMap] visits them. *)
Definition combos (addrMap : gmap string (gset string))
  : list (string * string) :=
  '(name, set) ← map_to_list addrMap;
  (λ addr, (name, addr)) <$> elements set.

Definition parses (c : string * string) : bool :=
  match ParseAddr c.2 with Some _ => true | None => false end.

(** The address texts that the edges [rels] lead to on a store: for each
    edge whose target resolves to an address asset, the text of that
    address, as the set holds it. *)
Definition addrTexts (db : Store) (s : St db) (since : Z)
    (rels : list Relation) : list string :=
  rel ← rels;
  match findById db s (ID (ToAsset rel)) since with
  | Ok found =>
      match Content found with
      | OIPAddress a => [setKey (AddrString (Address a))]
      | _ => []
      end
  | Err _ => []
  end.

(** What one target adds to the map on a store. *)
Definition aggStep (db : Store) (s : St db) (since : Z)
    (m : gmap string (gset string)) (tar : target)
  : gmap string (gset string) :=
  match outgoingRelations db s (asset tar) since ["a_record"; "aaaa_record"]
  with
  | Ok (rel :: rels) =>
      <[Name (fqdn tar) :=
          list_to_set (addrTexts db s since (rel :: rels))
          ∪ default ∅ (m !! Name (fqdn tar))]> m
  | _ => m
  end.

Definition isFQDN (c : OAMAsset) : bool :=
  match c with OFQDN _ => true | _ => false end.

End Graph.

(** ** Text functions of the Go library (package strings)

    [strings.ToLower] and [strings.TrimSpace] work on the runes of a
    text, by the tables of Unicode.  They are taken as they are called;
    nothing is assumed of them. *)

Class GoStrings := {
  ToLower : string → string;
  TrimSpace : string → string
}.

(** [strings.ToLower(strings.TrimSpace(name))] *)
Definition normalize {gostr : GoStrings} (name : string) : string :=
  ToLower (TrimSpace name).

(** ** The scraper plugin: process, submitCallback

    [support.ScrapeSubdomainNames] and the scope test of the session
    configuration are collaborators.  So is [support.AppendToDBQueue],
    whose body is outside the files at hand: it is taken as it is
    called, on a closure and the queue as it stands, and nothing is
    assumed of it.  Whether, when and in which order the closures it is
    handed run is its own business. *)
Section Scraper.
Context {netip : NetIP} {gostr : GoStrings} {Queue : Type}.
Variable ScrapeSubdomainNames : string → list string.
Variable IsDomainInScope : string → bool.
Variable AppendToDBQueue : Prog (option (string * Asset)) → Queue → Queue.

(** The closure that [submitCallback] builds for [name].  Run, it calls
    [e.Session.DB().Create(nil, "", &domain.FQDN{Name: name})] and, when
    that succeeds, hands one event to the dispatcher; its value is the
    name and asset of that event. *)
Definition callback (name : string) : Prog (option (string * Asset)) :=
  Create None "" (Some (OFQDN {| Name := name |})) (λ r,
    match r with
    | Ok a => Ret (Some (name, a))
    | Err _ => Ret None
    end).

(** [support.AppendToDBQueue(func() {...})] *)
Definition submitCallback (name : string) (queue : Queue) : Queue :=
  AppendToDBQueue (callback name) queue.

Fixpoint processNames (names : list string) (queue : Queue) : Queue :=
  match names with
  | [] => queue
  | name :: rest =>
      let n := normalize name in
      if negb (String.eqb n "") && IsDomainInScope n then
        processNames rest (submitCallback n queue)
      else processNames rest queue
  end.

Definition process (body : string) (queue : Queue) : Queue :=
  processNames (ScrapeSubdomainNames body) queue.

End Scraper.

(** ** The plugins: sitedossier (package scrape) and wayback (package archive)

    The collaborators of a plugin are taken as they are called: the
    session configuration ([WhichDomain], [CheckTransformations] with the
    [IsMatch] of what it returns, [IsDomainInScope]), the page fetcher
    ([http.RequestWebPage], which answers a URL with a body or fails),
    the scraper of names, the JSON decoder and the sub-domain regular
    expression.  Nothing is assumed of them. *)

(** Errors of the plugins: made by [errors.New], returned by the
    configuration, or made by [fmt.Errorf("error fetching URL: %w", err)]
    around the error [err] of the fetcher. *)
Inductive perror :=
| PNew (msg : string)
| PConfig (code : string)
| PFetch (cause : string).

Module SiteDossier.
Section Plugin.
Context {netip : NetIP} {gostr : GoStrings} {Queue : Type}.
Variable WhichDomain : string → string.
Variable CheckTransformations : string → string → string → perror + (string → bool).
Variable RequestWebPage : string → string + string.
Variable ScrapeSubdomainNames : string → list string.
Variable IsDomainInScope : string → bool.
Variable AppendToDBQueue : Prog (option (string * Asset)) → Queue → Queue.

(** [fmt.Sprintf(sd.fmtstr, name, itemnum)] with the format
    ["http://www.sitedossier.com/parentdomain/%s/%d"]. *)
Definition url (name : string) (itemnum : Z) : string :=
  "http://www.sitedossier.com/parentdomain/" +:+ name +:+ "/" +:+ pretty itemnum.

Definition query (name : string) (itemnum : Z) : perror + string :=
  match RequestWebPage (url name itemnum) with
  | inl err => inl (PFetch err)
  | inr body => inr body
  end.

(** [for i := 1; i < 20; i++], unfolded at most [fuel] times. *)
Fixpoint pages (fuel : nat) (domlt : string) (i : Z) (queue : Queue)
  : Queue :=
  match fuel with
  | O => queue
  | S fuel' =>
      if i <? 20 then
        match query domlt i with
        | inr body =>
            pages fuel' domlt (i + 1)
              (process ScrapeSubdomainNames IsDomainInScope AppendToDBQueue
                 body queue)
        | inl _ => pages fuel' domlt (i + 1) queue
        end
      else queue
  end.

(** [check], on the payload of the asset of the event and the queue as
    it stands: the error returned and the queue afterwards. *)
Definition check (content : OAMAsset) (queue : Queue)
  : option perror * Queue :=
  match content with
  | OFQDN fqdn =>
      let domlt := normalize (Name fqdn) in
      if negb (String.eqb (WhichDomain domlt) domlt) then (None, queue)
      else
        match CheckTransformations "fqdn" "fqdn" "sitedossier" with
        | inl err => (Some err, queue)
        | inr matches =>
            if negb (matches "fqdn") then (None, queue)
            else (None, pages 19 domlt 1 queue)
        end
  | _ => (Some (PNew "failed to extract the FQDN asset"), queue)
  end.

End Plugin.
End SiteDossier.

Module Wayback.
Section Plugin.
Context {netip : NetIP} {strset : StringSet} {gostr : GoStrings}.
Variable WhichDomain : string → string.
Variable CheckTransformations : string → string → string → perror + (string → bool).
Variable RequestWebPage : string → string + string.
Variable IsDomainInScope : string → bool.
(** [json.Unmarshal] of the records into [[][]string]; [None] is an
    error. *)
Variable Unmarshal : string → option (list (list string)).
(** [dns.AnySubdomainRegex().FindString]: the empty text for no match. *)
Variable FindString : string → string.

Definition URL : string :=
  "https://web.archive.org/cdx/search/cdx?matchType=domain&fl=original&output=json&collapse=urlkey&url=".

Definition query (name : string) : perror + string :=
  match RequestWebPage (URL +:+ name) with
  | inl err => inl (PFetch err)
  | inr body => inr body
  end.

(** The loop of [process] over the decoded rows. *)
Fixpoint collect (urls : list (list string)) (subdomains : gset string)
  : gset string :=
  match urls with
  | [] => subdomains
  | url :: rest =>
      match url with
      | [u] =>
          let n := FindString u in
          if negb (String.eqb n "") then
            collect rest ({[setKey n]} ∪ subdomains)
          else collect rest subdomains
      | _ => collect rest subdomains
      end
  end.

Definition process (records : string) : list string :=
  match Unmarshal records with
  | None => []
  | Some urls => elements (collect urls ∅)
  end.

(** [submit]; the events handed to the dispatcher are collected in
    [dispatched], each with its name and asset. *)
Fixpoint submit (subs : list string) (dispatched : list (string * Asset))
  : Prog (list (string * Asset)) :=
  match subs with
  | [] => Ret dispatched
  | n :: rest =>
      if negb (IsDomainInScope n) then submit rest dispatched
      else
        Create None "" (Some (OFQDN {| Name := n |})) (λ r,
          match r with
          | Ok a => submit rest (dispatched ++ [(n, a)])
          | Err _ => submit rest dispatched
          end)
  end.

(** [check], on the payload of the asset of the event; the value is the
    error returned and the events dispatched. *)
Definition check (content : OAMAsset)
  : Prog (option perror * list (string * Asset)) :=
  match content with
  | OFQDN fqdn =>
      let domlt := normalize (Name fqdn) in
      if negb (String.eqb (WhichDomain domlt) domlt) then Ret (None, [])
      else
        match CheckTransformations "fqdn" "fqdn" "wayback" with
        | inl err => Ret (Some err, [])
        | inr matches =>
            if negb (matches "fqdn") then Ret (None, [])
            else
              match query domlt with
              | inl err => Ret (Some err, [])
              | inr records =>
                  submit (process records) [] ≫= λ d, Ret (None, d)
              end
        end
  | _ => Ret (Some (PNew "failed to extract the FQDN asset"), [])
  end.

End Plugin.
End Wayback.

(** ** Further observations *)

Section Observations.
Context {netip : NetIP} {strset : StringSet}.

(** The cutoff a lookup carries. *)
Definition sinceOf (e : event) : option Z :=
  match e with
  | EFindByContent _ c _ | EFindById _ c _ | EOutgoingRelations _ c _ _ =>
      Some c
  | ECreate _ _ _ _ => None
  end.

(** [Every P p]: whatever the store answers, each call of [p], with its
    answer, satisfies [P]. *)
Inductive Every {A : Type} (P : event → Prop) : Prog A → Prop :=
| Every_Ret a : Every P (Ret a)
| Every_FindByContent t c k :
    (∀ r, P (EFindByContent t c r)) → (∀ r, Every P (k r)) →
    Every P (FindByContent t c k)
| Every_FindById i c k :
    (∀ r, P (EFindById i c r)) → (∀ r, Every P (k r)) →
    Every P (FindById i c k)
| Every_OutgoingRelations a c ts k :
    (∀ r, P (EOutgoingRelations a c ts r)) → (∀ r, Every P (k r)) →
    Every P (OutgoingRelations a c ts k)
| Every_Create p rel d k :
    (∀ r, P (ECreate p rel d r)) → (∀ r, Every P (k r)) →
    Every P (Create p rel d k).


(** One turn of the loop of [findNames] on a store, on the filter and the
    assets found so far. *)
Definition findStep (db : Store) (s : St db) (since : Z)
    (st : gset string * list Asset) (name : string)
  : gset string * list Asset :=
  if decide (setKey name ∈ st.1) then st
  else
    match findByContent db s (OFQDN {| Name := name |}) since with
    | Ok (a0 :: _) => ({[setKey name]} ∪ st.1, st.2 ++ [a0])
    | _ => st
    end.

(** A name is settled when the loop will skip it or find nothing. *)
Definition settled (db : Store) (s : St db) (since : Z)
    (st : gset string * list Asset) (n : string) : Prop :=
  setKey n ∈ st.1 ∨ findable db s since n = false.

(** The name an event creates: a [Create] of a name asset with no parent
    and no relation. *)
Definition nameCreated (e : event) : option string :=
  match e with
  | ECreate None EmptyString (Some (OFQDN f)) _ => Some (Name f)
  | _ => None
  end.

(** The name and asset of a [Create] of a name asset that succeeded. *)
Definition nameStored (e : event) : option (string * Asset) :=
  match e with
  | ECreate None EmptyString (Some (OFQDN f)) (Ok a) => Some (Name f, a)
  | _ => None
  end.

(** The test of [process] on a normalised name. *)
Definition keeps (IsDomainInScope : string → bool) (n : string) : bool :=
  negb (String.eqb n "") && IsDomainInScope n.

End Observations.

(** ** Stand-ins used by the examples

    The examples need one parser, one store, the text functions and a
    queue.  None is among the files at hand. *)

(** The text functions of the examples work on ASCII text, where they do
    what the Go library does: upper-case letters are folded, and tab,
    line feed, vertical tab, form feed, carriage return and space are cut
    from both ends.  No example has another byte in a name. *)
Definition isSpace (c : ascii) : bool :=
  let n := nat_of_ascii c in
  ((9 <=? n) && (n <=? 13) || (n =? 32))%nat.

Definition toLowerChar (c : ascii) : ascii :=
  let n := nat_of_ascii c in
  if ((65 <=? n) && (n <=? 90))%nat then ascii_of_nat (n + 32) else c.

Fixpoint trimLeft (s : string) : string :=
  match s with
  | String c rest => if isSpace c then trimLeft rest else s
  | EmptyString => EmptyString
  end.

Definition asciiTrimSpace (s : string) : string :=
  String.rev (trimLeft (String.rev (trimLeft s))).

Fixpoint asciiToLower (s : string) : string :=
  match s with
  | String c rest => String (toLowerChar c) (asciiToLower rest)
  | EmptyString => EmptyString
  end.

Definition tGoStrings : GoStrings :=
  {| ToLower := asciiToLower; TrimSpace := asciiTrimSpace |}.

(** An address of the stand-in parser: its family and its text. *)
Inductive tAddr := TAddr (v6 : bool) (text : string).

#[global] Instance tAddr_eq_dec : EqDecision tAddr.
Proof. solve_decision. Defined.

(** The stand-in parser knows the literals of the examples, no more. *)
Definition tParse (s : string) : option tAddr :=
  if bool_decide (s ∈ ["93.184.216.34"; "10.0.0.1"; "10.0.0.2"]) then
    Some (TAddr false s)
  else if bool_decide (s ∈ ["2606:2800:220:1:248:1893:25c8:1946"]) then
    Some (TAddr true s)
  else None.

(** The stand-in set folds case, as the library does. *)
Definition tStringSet : StringSet := {| setKey := asciiToLower |}.

Definition tNetIP : NetIP :=
  {| Addr := tAddr;
     ParseAddr := tParse;
     Is4 := λ a, match a with TAddr v6 _ => negb v6 end;
     Is6 := λ a, match a with TAddr v6 _ => v6 end;
     AddrString := λ a, match a with TAddr _ s => s end |}.

Section InMemory.
#[local] Existing Instance tNetIP.
#[local] Existing Instance tStringSet.
#[local] Existing Instance tGoStrings.

(** Modelled from the spec: the store of section 6 (the asset database,
    which this repository only calls).  Assets are found by content or by
    identifier, relations by source, type and creation time; [Create] is
    idempotent and refuses a nil payload. *)
Record memState := {
  assets : list Asset;
  edges : list (Z * Relation);
  clock : Z
}.

Fixpoint idOf (n : nat) : string :=
  match n with
  | O => "#"
  | S k => String "i" (idOf k)
  end.

Definition memFindByContent (st : memState) (tmpl : OAMAsset) (since : Z)
  : result (list Asset) :=
  Ok (filter (λ a, Content a = tmpl) (assets st)).

Definition memFindById (st : memState) (id : string) (since : Z)
  : result Asset :=
  match filter (λ a, ID a = id) (assets st) with
  | a :: _ => Ok a
  | [] => Err (StoreError "asset not found")
  end.

Definition memOutgoingRelations (st : memState) (a : Asset) (since : Z)
    (reltypes : list string) : result (list Relation) :=
  Ok (snd <$> filter (λ e, since ≤ e.1 ∧ ID (FromAsset e.2) = ID a
                           ∧ RelType e.2 ∈ reltypes) (edges st)).

Definition memCreate (st : memState) (source : option Asset)
    (relation : string) (discovered : option OAMAsset)
  : memState * result Asset :=
  match discovered with
  | None => (st, Err (StoreError "nil asset"))
  | Some c =>
      let '(a, assets') :=
        match filter (λ a, Content a = c) (assets st) with
        | a :: _ => (a, assets st)
        | [] =>
            let a := {| ID := idOf (length (assets st)); Content := c |} in
            (a, assets st ++ [a])
        end in
      let edges' :=
        match source with
        | None => edges st
        | Some p =>
            let rel := {| RelType := relation; FromAsset := p; ToAsset := a |} in
            if bool_decide (rel ∈ (snd <$> edges st)) then edges st
            else edges st ++ [(clock st, rel)]
        end in
      ({| assets := assets'; edges := edges'; clock := clock st + 1 |}, Ok a)
  end.

Definition memStore : Store :=
  {| St := memState;
     findByContent := memFindByContent;
     findById := memFindById;
     outgoingRelations := memOutgoingRelations;
     create := memCreate |}.

Definition emptyMem : memState := {| assets := []; edges := []; clock := 0 |}.

(** A store whose every call fails. *)
Definition downStore : Store :=
  {| St := unit;
     findByContent := λ _ _ _, Err (StoreError "store is down");
     findById := λ _ _ _, Err (StoreError "store is down");
     outgoingRelations := λ _ _ _ _, Err (StoreError "store is down");
     create := λ s _ _ _, (s, Err (StoreError "store is down")) |}.

(** Modelled from the spec: [UpsertFQDN], which is defined outside the
    files at hand; section 4.4 has it "idempotently create/find the Name
    asset". *)
Definition specUpsertFQDN (name : string) : Prog (result Asset) :=
  Create None "" (Some (OFQDN {| Name := name |})) Ret.

(** Graphs for the examples: names [n0, n1, ...], one asset each. *)
Definition nameOf (i : nat) : string := String "n" (idOf i).

Definition nameAsset (i : nat) : Asset :=
  {| ID := idOf i; Content := OFQDN {| Name := nameOf i |} |}.

Definition addrAsset (id : string) (text : string) : Asset :=
  {| ID := id;
     Content := OIPAddress {| Address := TAddr false text; Type_ := "IPv4" |} |}.

Definition edge (t : string) (from to : Asset) : Z * Relation :=
  (0, {| RelType := t; FromAsset := from; ToAsset := to |}).

(** [n0 -> n1 -> ... -> n15] by CNAME, an address below [n10] and another
    below [n15]. *)
Definition longChain : memState :=
  {| assets := (nameAsset <$> seq 0 16)
               ++ [addrAsset "A10" "10.0.0.1"; addrAsset "A15" "10.0.0.2"];
     edges := ((λ i, edge "cname_record" (nameAsset i) (nameAsset (S i)))
                 <$> seq 0 15)
              ++ [edge "a_record" (nameAsset 10) (addrAsset "A10" "10.0.0.1");
                  edge "a_record" (nameAsset 15) (addrAsset "A15" "10.0.0.2")];
     clock := 1 |}.

(** [n0 -> n1 -> n2 -> n0] by CNAME. *)
Definition cycle3 : memState :=
  {| assets := nameAsset <$> seq 0 3;
     edges := [edge "cname_record" (nameAsset 0) (nameAsset 1);
               edge "cname_record" (nameAsset 1) (nameAsset 2);
               edge "cname_record" (nameAsset 2) (nameAsset 0)];
     clock := 1 |}.

(** [n0 -> n1] by CNAME; below [n1] two address assets with the same
    address, and a third with another. *)
Definition twins : memState :=
  {| assets := [nameAsset 0; nameAsset 1; addrAsset "A" "10.0.0.1";
                addrAsset "B" "10.0.0.1"; addrAsset "C" "10.0.0.2"];
     edges := [edge "cname_record" (nameAsset 0) (nameAsset 1);
               edge "a_record" (nameAsset 1) (addrAsset "A" "10.0.0.1");
               edge "a_record" (nameAsset 1) (addrAsset "B" "10.0.0.1");
               edge "a_record" (nameAsset 1) (addrAsset "C" "10.0.0.2")];
     clock := 1 |}.


(** [n0] with a CNAME edge to an asset that the store does not hold. *)
Definition dangling : memState :=
  {| assets := [nameAsset 0];
     edges := [edge "cname_record" (nameAsset 0) (nameAsset 1)];
     clock := 1 |}.

End InMemory.

(** Collaborators of the plugins for the examples: one root domain, a
    configuration that lets the plugin run, one page and one set of
    records. *)
Section PluginStandIns.
#[local] Existing Instance tNetIP.
#[local] Existing Instance tStringSet.
#[local] Existing Instance tGoStrings.

Definition tWhichDomain (name : string) : string := "example.com".

Definition tCheckTransformations (from to plugin : string)
  : perror + (string → bool) := inr (λ _, true).

Definition tRequestWebPage (u : string) : string + string :=
  if String.eqb u (SiteDossier.url "example.com" 2) then inr "page two"
  else if String.eqb u (Wayback.URL +:+ "example.com") then inr "records"
  else inl "not found".

Definition tScrapeSubdomainNames (body : string) : list string :=
  if String.eqb body "page two" then [" WWW.Example.com "; "other.org"; "  "]
  else [].

Definition tIsDomainInScope (n : string) : bool :=
  bool_decide (n ∈ ["www.example.com"; "example.com"]).

(** A queue that keeps the closures in the order it is handed them. *)
Definition tAppendToDBQueue (c : Prog (option (string * Asset)))
    (queue : list (Prog (option (string * Asset))))
  : list (Prog (option (string * Asset))) :=
  queue ++ [c].

Definition tUnmarshal (records : string) : option (list (list string)) :=
  if String.eqb records "records" then
    Some [["http://WWW.example.com/x"]; ["a"; "b"]; ["ftp://other.org/"];
          ["nothing"]; ["http://www.EXAMPLE.com/y"]]
  else None.

Definition tFindString (u : string) : string :=
  if String.eqb u "http://WWW.example.com/x" then "WWW.example.com"
  else if String.eqb u "http://www.EXAMPLE.com/y" then "www.EXAMPLE.com"
  else if String.eqb u "ftp://other.org/" then "other.org"
  else "".

End PluginStandIns.

(** * Properties *)

Section Facts.
Context {netip : NetIP} {strset : StringSet} {gostr : GoStrings}.

(** ** Runs *)

Lemma run_bind {A B : Type} (db : Store) (m : Prog A) (f : A → Prog B)
    (s : St db) :
  run db (m ≫= f) s =
    let '(a, s1, t1) := run db m s in
    let '(b, s2, t2) := run db (f a) s1 in
    (b, s2, t1 ++ t2).
Proof.
  revert s. induction m as [a|t c k IH|i c k IH|x c ts k IH|p rel d k IH];
    intros s; unfold mbind, Prog_bind in *; simpl.
  - destruct (run db (f a) s) as [[b s2] t2]. reflexivity.
  - rewrite IH. destruct (run db (k _) s) as [[a s1] t1].
    destruct (run db (f a) s1) as [[b s2] t2]. reflexivity.
  - rewrite IH. destruct (run db (k _) s) as [[a s1] t1].
    destruct (run db (f a) s1) as [[b s2] t2]. reflexivity.
  - rewrite IH. destruct (run db (k _) s) as [[a s1] t1].
    destruct (run db (f a) s1) as [[b s2] t2]. reflexivity.
  - destruct (create db s p rel d) as [s0 r]. rewrite IH.
    destruct (run db (k r) s0) as [[a s1] t1].
    destruct (run db (f a) s1) as [[b s2] t2]. reflexivity.
Qed.

Lemma run_eta {A : Type} (db : Store) (p : Prog A) (s : St db) :
  run db p s = (value db p s, final db p s, trace db p s).
Proof. unfold value, final, trace. by destruct (run db p s) as [[? ?] ?]. Qed.

Lemma Uses_weaken {A : Type} (K K' : kind → Prop) (p : Prog A) :
  (∀ k, K k → K' k) → Uses K p → Uses K' p.
Proof. intros HK Hp. induction Hp; constructor; auto. Qed.

Lemma Uses_bind {A B : Type} K (m : Prog A) (f : A → Prog B) :
  Uses K m → (∀ a, Uses K (f a)) → Uses K (m ≫= f).
Proof.
  intros Hm Hf. induction Hm; unfold mbind, Prog_bind in *; simpl;
    [apply Hf | constructor; auto ..].
Qed.

Lemma Uses_trace {A : Type} K (db : Store) (p : Prog A) (s : St db) :
  Uses K p → ∀ e, e ∈ trace db p s → K (kindOf e).
Proof.
  intros Hp. revert s.
  induction Hp as [a|t c k HK _ IH|i c k HK _ IH|x c ts k HK _ IH
                  |q rel d k HK _ IH]; intros s e; unfold trace in *; simpl.
  - by intros ?%elem_of_nil.
  - specialize (IH (findByContent db s t c) s e).
    destruct (run db (k _) s) as [[a s1] t1]; simpl in *.
    intros [->|He]%elem_of_cons; auto.
  - specialize (IH (findById db s i c) s e).
    destruct (run db (k _) s) as [[a s1] t1]; simpl in *.
    intros [->|He]%elem_of_cons; auto.
  - specialize (IH (outgoingRelations db s x c ts) s e).
    destruct (run db (k _) s) as [[a s1] t1]; simpl in *.
    intros [->|He]%elem_of_cons; auto.
  - destruct (create db s q rel d) as [s0 r]. specialize (IH r s0 e).
    destruct (run db (k r) s0) as [[a s1] t1]; simpl in *.
    intros [->|He]%elem_of_cons; auto.
Qed.

Lemma ReadOnly_bind {A B : Type} (m : Prog A) (f : A → Prog B) :
  ReadOnly m → (∀ a, ReadOnly (f a)) → ReadOnly (m ≫= f).
Proof. apply Uses_bind. Qed.

Lemma ReadOnly_run {A : Type} (db : Store) (p : Prog A) (s : St db) :
  ReadOnly p →
  final db p s = s ∧ ∀ e, e ∈ trace db p s → isCreate e = false.
Proof.
  intros Hp. split.
  - induction Hp as [a|t c k _ _ IH|i c k _ _ IH|x c ts k _ _ IH
                    |q rel d k HK _ _]; unfold final in *; simpl; try done.
    + specialize (IH (findByContent db s t c)).
      by destruct (run db (k _) s) as [[a s1] t1].
    + specialize (IH (findById db s i c)).
      by destruct (run db (k _) s) as [[a s1] t1].
    + specialize (IH (outgoingRelations db s x c ts)).
      by destruct (run db (k _) s) as [[a s1] t1].
  - intros e He. pose proof (Uses_trace _ db p s Hp e He) as Hk.
    by destruct e.
Qed.

Lemma run_bind_ro {A B : Type} (db : Store) (m : Prog A) (f : A → Prog B)
    (s : St db) :
  ReadOnly m →
  run db (m ≫= f) s =
    (value db (f (value db m s)) s, final db (f (value db m s)) s,
     trace db m s ++ trace db (f (value db m s)) s).
Proof.
  intros Hm. rewrite run_bind.
  pose proof (ReadOnly_run db m s Hm) as [Hs _].
  rewrite (run_eta db m s), Hs.
  by rewrite (run_eta db (f _) s).
Qed.

(** ** The read path calls no [Create] *)

Lemma findNames_uses since names filter fqdns :
  Uses (λ k, k = KFindByContent) (findNames since names filter fqdns).
Proof.
  revert filter fqdns. induction names as [|name rest IH]; intros; simpl.
  - constructor.
  - case_decide; [apply IH |]. constructor; [done |].
    intros [[|a0 l]|e]; apply IH.
Qed.

Lemma followFirst_uses since rels cur :
  Uses (λ k, k = KFindById) (followFirst since rels cur).
Proof.
  induction rels as [|rel rest IH]; simpl; constructor; [done |].
  intros [found|e]; [constructor | apply IH].
Qed.

Lemma chainLoop_uses fuel since i cur :
  Uses walkKinds (chainLoop fuel since i cur).
Proof.
  revert i cur. induction fuel as [|fuel IH]; intros; cbn [chainLoop];
    [constructor |].
  destruct (i <=? 10); [| constructor]. constructor; [by right |].
  intros [[|rel rels]|e]; lazy beta iota; [constructor | | constructor].
  apply Uses_bind; [| intros; apply IH].
  eapply Uses_weaken; [| apply followFirst_uses]. intros k ->. by left.
Qed.

Lemma buildTargets_uses since fqdns targets :
  Uses walkKinds (buildTargets since fqdns targets).
Proof.
  revert targets. induction fqdns as [|a rest IH]; intros; cbn [buildTargets].
  - constructor.
  - destruct (Content a); [| apply IH ..].
    apply Uses_bind; [apply chainLoop_uses | intros; apply IH].
Qed.

Lemma addrLoop_uses since name rels m :
  Uses (λ k, k = KFindById) (addrLoop since name rels m).
Proof.
  revert m. induction rels as [|rel rest IH]; intros; simpl; constructor;
    [done |].
  intros [found|e]; [destruct (Content found) |]; apply IH.
Qed.

Lemma aggregate_uses since targets m :
  Uses walkKinds (aggregate since targets m).
Proof.
  revert m. induction targets as [|tar rest IH]; intros; cbn [aggregate];
    constructor; [by right |].
  intros [[|rel rels]|e]; lazy beta iota; [apply IH | | apply IH].
  apply Uses_bind; [| intros; apply IH].
  eapply Uses_weaken; [| apply addrLoop_uses]. intros k ->. by left.
Qed.

Lemma walkKinds_ro {A : Type} (p : Prog A) : Uses walkKinds p → ReadOnly p.
Proof. apply Uses_weaken. by intros k [->| ->]. Qed.

Lemma findNames_ro since names filter fqdns :
  ReadOnly (findNames since names filter fqdns).
Proof. eapply Uses_weaken; [| apply findNames_uses]. by intros k ->. Qed.

Lemma followFirst_ro since rels cur : ReadOnly (followFirst since rels cur).
Proof. eapply Uses_weaken; [| apply followFirst_uses]. by intros k ->. Qed.

Lemma chainLoop_ro fuel since i cur : ReadOnly (chainLoop fuel since i cur).
Proof. apply walkKinds_ro, chainLoop_uses. Qed.

Lemma buildTargets_ro since fqdns targets :
  ReadOnly (buildTargets since fqdns targets).
Proof. apply walkKinds_ro, buildTargets_uses. Qed.

Lemma addrLoop_ro since name rels m : ReadOnly (addrLoop since name rels m).
Proof. eapply Uses_weaken; [| apply addrLoop_uses]. by intros k ->. Qed.

Lemma aggregate_ro since targets m : ReadOnly (aggregate since targets m).
Proof. apply walkKinds_ro, aggregate_uses. Qed.

Lemma NamesToAddrs_ro since names : ReadOnly (NamesToAddrs since names).
Proof.
  unfold NamesToAddrs.
  apply ReadOnly_bind; [apply findNames_ro | intros fqdns].
  destruct (_ =? _)%nat; [constructor |].
  apply ReadOnly_bind; [apply buildTargets_ro | intros targets].
  destruct (_ =? _)%nat; [constructor |].
  apply ReadOnly_bind; [apply aggregate_ro | intros m].
  destruct (_ =? _)%nat; [constructor |].
  destruct (_ =? _)%nat; constructor.
Qed.

(** C9: the read path never mutates the graph.  Whatever the store
    answers, [NamesToAddrs] calls only [FindByContent], [FindById] and
    [OutgoingRelations]; on every store and from every state no [Create]
    call is made and the state of the store is left as it was. *)
Theorem NamesToAddrs_never_creates (since : Z) (names : list string) :
  ReadOnly (NamesToAddrs since names) ∧
  ∀ (db : Store) (s : St db),
    final db (NamesToAddrs since names) s = s ∧
    countIf isCreate (trace db (NamesToAddrs since names) s) = O.
Proof.
  split; [apply NamesToAddrs_ro |]. intros db s.
  destruct (ReadOnly_run db _ s (NamesToAddrs_ro since names)) as [Hs Htr].
  split; [done |].
  induction (trace db (NamesToAddrs since names) s) as [|e tr IH]; [done |].
  simpl. rewrite (Htr e), IH; [done | | left].
  intros e' He'. apply Htr. by right.
Qed.

(** ** Equations of [run] *)

Lemma value_ret {A : Type} (db : Store) (a : A) (s : St db) :
  value db (Ret a) s = a.
Proof. reflexivity. Qed.

Lemma trace_ret {A : Type} (db : Store) (a : A) (s : St db) :
  trace db (Ret a) s = [].
Proof. reflexivity. Qed.

Lemma value_FindByContent {A} db t c (k : _ → Prog A) (s : St db) :
  value db (FindByContent t c k) s = value db (k (findByContent db s t c)) s.
Proof. unfold value; simpl. by destruct (run db (k _) s) as [[? ?] ?]. Qed.

Lemma trace_FindByContent {A} db t c (k : _ → Prog A) (s : St db) :
  trace db (FindByContent t c k) s =
    EFindByContent t c (findByContent db s t c)
      :: trace db (k (findByContent db s t c)) s.
Proof. unfold trace; simpl. by destruct (run db (k _) s) as [[? ?] ?]. Qed.

Lemma value_FindById {A} db i c (k : _ → Prog A) (s : St db) :
  value db (FindById i c k) s = value db (k (findById db s i c)) s.
Proof. unfold value; simpl. by destruct (run db (k _) s) as [[? ?] ?]. Qed.

Lemma trace_FindById {A} db i c (k : _ → Prog A) (s : St db) :
  trace db (FindById i c k) s =
    EFindById i c (findById db s i c) :: trace db (k (findById db s i c)) s.
Proof. unfold trace; simpl. by destruct (run db (k _) s) as [[? ?] ?]. Qed.

Lemma value_OutgoingRelations {A} db x c ts (k : _ → Prog A) (s : St db) :
  value db (OutgoingRelations x c ts k) s =
    value db (k (outgoingRelations db s x c ts)) s.
Proof. unfold value; simpl. by destruct (run db (k _) s) as [[? ?] ?]. Qed.

Lemma trace_OutgoingRelations {A} db x c ts (k : _ → Prog A) (s : St db) :
  trace db (OutgoingRelations x c ts k) s =
    EOutgoingRelations x c ts (outgoingRelations db s x c ts)
      :: trace db (k (outgoingRelations db s x c ts)) s.
Proof. unfold trace; simpl. by destruct (run db (k _) s) as [[? ?] ?]. Qed.

Lemma value_bind {A B} db (m : Prog A) (f : A → Prog B) (s : St db) :
  ReadOnly m → value db (m ≫= f) s = value db (f (value db m s)) s.
Proof. intros Hm. unfold value at 1. by rewrite run_bind_ro. Qed.

Lemma trace_bind {A B} db (m : Prog A) (f : A → Prog B) (s : St db) :
  ReadOnly m →
  trace db (m ≫= f) s = trace db m s ++ trace db (f (value db m s)) s.
Proof. intros Hm. unfold trace at 1. by rewrite run_bind_ro. Qed.

Lemma run_ro {A} db (p : Prog A) (s : St db) :
  ReadOnly p → run db p s = (value db p s, s, trace db p s).
Proof.
  intros Hp. rewrite (run_eta db p s).
  by destruct (ReadOnly_run db p s Hp) as [-> _].
Qed.

Lemma countIf_app p t1 t2 :
  countIf p (t1 ++ t2) = (countIf p t1 + countIf p t2)%nat.
Proof. induction t1 as [|e t1 IH]; simpl; [done | rewrite IH; lia]. Qed.

Lemma lastReached_app cur t1 t2 :
  lastReached cur (t1 ++ t2) = lastReached (lastReached cur t1) t2.
Proof.
  revert cur. induction t1 as [|e t1 IH]; intros cur; simpl; [done |].
  destruct e as [| ? ? [?|?] | |]; apply IH.
Qed.

(** ** The alias chain *)

(** The inner loop stops at the first edge whose target resolves. *)
Lemma followFirst_resolved db (s : St db) since pre rel post found cur :
  (∀ x, x ∈ pre → ∃ e, findById db s (ID (ToAsset x)) since = Err e) →
  findById db s (ID (ToAsset rel)) since = Ok found →
  value db (followFirst since (pre ++ rel :: post) cur) s = found ∧
  trace db (followFirst since (pre ++ rel :: post) cur) s =
    ((λ x, EFindById (ID (ToAsset x)) since
             (findById db s (ID (ToAsset x)) since)) <$> pre)
    ++ [EFindById (ID (ToAsset rel)) since (Ok found)].
Proof.
  intros Hpre Hrel. induction pre as [|x pre IH]; simpl.
  - rewrite value_FindById, trace_FindById, Hrel. done.
  - rewrite value_FindById, trace_FindById.
    destruct (Hpre x) as [e He]; [left |]. rewrite He.
    destruct IH as [IHv IHt]; [intros y Hy; apply Hpre; by right |].
    by rewrite IHv, IHt.
Qed.

Lemma followFirst_trace db (s : St db) since rels cur :
  let tr := trace db (followFirst since rels cur) s in
  countIf isOutgoing tr = O ∧ (countIf isFollow tr ≤ 1)%nat ∧
  value db (followFirst since rels cur) s = lastReached cur tr ∧
  ∀ x c ts r, EOutgoingRelations x c ts r ∉ tr.
Proof.
  induction rels as [|rel rest IH]; simpl.
  - rewrite trace_ret, value_ret. simpl. repeat split; [lia |].
    intros ???? Hin%elem_of_nil. done.
  - rewrite trace_FindById, value_FindById.
    destruct (findById db s (ID (ToAsset rel)) since) as [found|e]; simpl.
    + rewrite trace_ret, value_ret. simpl. repeat split; [lia |].
      intros ???? [?|?%elem_of_nil]%elem_of_cons; done.
    + destruct IH as (IH1 & IH2 & IH3 & IH4). repeat split; try done.
      intros ???? [?|Hin]%elem_of_cons; [done | by eapply IH4].
Qed.

Lemma chainLoop_step db (s : St db) fuel since i cur rel rels :
  i ≤ 10 →
  outgoingRelations db s cur since (reltypesAt i) = Ok (rel :: rels) →
  let nxt := value db (followFirst since (rel :: rels) cur) s in
  value db (chainLoop (S fuel) since i cur) s =
    value db (chainLoop fuel since (i + 1) nxt) s ∧
  trace db (chainLoop (S fuel) since i cur) s =
    EOutgoingRelations cur since (reltypesAt i) (Ok (rel :: rels))
      :: trace db (followFirst since (rel :: rels) cur) s
      ++ trace db (chainLoop fuel since (i + 1) nxt) s.
Proof.
  intros Hi Hr. cbn [chainLoop].
  destruct (Z.leb_spec i 10); [| lia].
  rewrite value_OutgoingRelations, trace_OutgoingRelations, Hr.
  lazy beta iota.
  rewrite value_bind, trace_bind by apply followFirst_ro. done.
Qed.

Lemma chainLoop_stop db (s : St db) fuel since i cur :
  i ≤ 10 →
  noEdges db s since cur (reltypesAt i) →
  run db (chainLoop (S fuel) since i cur) s =
    (cur, s, [EOutgoingRelations cur since (reltypesAt i)
                (outgoingRelations db s cur since (reltypesAt i))]).
Proof.
  intros Hi Hr. rewrite run_ro by apply chainLoop_ro.
  cbn [chainLoop]. destruct (Z.leb_spec i 10); [| lia].
  rewrite value_OutgoingRelations, trace_OutgoingRelations.
  destruct (outgoingRelations db s cur since (reltypesAt i))
    as [[|rel rels]|e] eqn:E; try done.
  by destruct (Hr rel rels).
Qed.

Lemma chainLoop_past db (s : St db) fuel since i cur :
  10 < i → run db (chainLoop fuel since i cur) s = (cur, s, []).
Proof.
  intros Hi. destruct fuel; [done |]. cbn [chainLoop].
  by destruct (Z.leb_spec i 10); [lia |].
Qed.

Lemma chainLoop_bound db (s : St db) fuel since i cur :
  let tr := trace db (chainLoop fuel since i cur) s in
  (countIf isOutgoing tr ≤ Z.to_nat (11 - i))%nat ∧
  (countIf isFollow tr ≤ Z.to_nat (11 - i))%nat ∧
  value db (chainLoop fuel since i cur) s = lastReached cur tr.
Proof.
  revert i cur. induction fuel as [|fuel IH]; intros i cur.
  - unfold value, trace. simpl. repeat split; lia.
  - destruct (Z.leb_spec i 10) as [Hi|Hi].
    2:{ unfold value, trace. rewrite chainLoop_past by lia. simpl.
        repeat split; lia. }
    destruct (outgoingRelations db s cur since (reltypesAt i))
      as [[|rel rels]|e] eqn:E.
    2:{ destruct (chainLoop_step db s fuel since i cur rel rels Hi E)
          as [Hv Ht].
        cbv zeta. rewrite Hv, Ht.
        cbn [countIf lastReached isOutgoing isFollow].
        rewrite !countIf_app, lastReached_app.
        destruct (followFirst_trace db s since (rel :: rels) cur)
          as (F1 & F2 & F3 & _).
        destruct (IH (i + 1)
                     (value db (followFirst since (rel :: rels) cur) s))
          as (I1 & I2 & I3).
        rewrite F1, I3, <- F3. repeat split; lia. }
    all: unfold value, trace; rewrite chainLoop_stop; [| done |];
      [cbn [fst snd countIf lastReached isOutgoing isFollow];
       repeat split; lia |];
      intros rel rels; rewrite E; done.
Qed.

Lemma chainLoop_fuel db (s : St db) since fuel1 fuel2 i cur :
  (Z.to_nat (11 - i) ≤ fuel1)%nat → (Z.to_nat (11 - i) ≤ fuel2)%nat →
  run db (chainLoop fuel1 since i cur) s =
  run db (chainLoop fuel2 since i cur) s.
Proof.
  revert fuel2 i cur. induction fuel1 as [|fuel1 IH]; intros fuel2 i cur H1 H2.
  - rewrite (chainLoop_past db s fuel2) by lia. done.
  - destruct (Z.leb_spec i 10) as [Hi|Hi].
    2:{ by rewrite !chainLoop_past by lia. }
    destruct fuel2 as [|fuel2]; [lia |].
    destruct (outgoingRelations db s cur since (reltypesAt i))
      as [[|rel rels]|e] eqn:E.
    2:{ rewrite !run_ro by apply chainLoop_ro.
        destruct (chainLoop_step db s fuel1 since i cur rel rels Hi E)
          as [-> ->].
        destruct (chainLoop_step db s fuel2 since i cur rel rels Hi E)
          as [-> ->].
        cbv zeta.
        generalize (value db (followFirst since (rel :: rels) cur) s).
        intros nxt.
        assert (IH' := IH fuel2 (i + 1) nxt ltac:(lia) ltac:(lia)).
        rewrite !run_ro in IH' by apply chainLoop_ro.
        injection IH' as Hv Ht. by rewrite Hv, Ht. }
    all: rewrite !chainLoop_stop; try done;
      intros rel rels; rewrite E; done.
Qed.

(** C2: the walk along an alias chain is bounded.  On every store (any
    graph, cyclic or deep) the walk asks for outgoing relations at most
    ten times and follows at most ten edges; it returns the asset it
    stands on when it stops; and it does not depend on the unfolding
    bound of the model: ten unfoldings give the result of any larger
    number. *)
Theorem aliasChain_at_most_ten_hops (db : Store) (s : St db) (since : Z)
    (a : Asset) :
  let tr := trace db (aliasChain since a) s in
  (countIf isOutgoing tr ≤ 10)%nat ∧
  (countIf isFollow tr ≤ 10)%nat ∧
  value db (aliasChain since a) s = lastReached a tr ∧
  ∀ fuel, (10 ≤ fuel)%nat →
    run db (chainLoop fuel since 1 a) s = run db (aliasChain since a) s.
Proof.
  destruct (chainLoop_bound db s 10 since 1 a) as (B1 & B2 & B3).
  unfold aliasChain. repeat split; try done.
  intros fuel Hfuel. apply chainLoop_fuel; simpl; lia.
Qed.

Lemma reltypesAt_spec i :
  reltypesAt i =
    if decide (i = 1) then ["cname_record"; "srv_record"]
    else ["cname_record"].
Proof.
  unfold reltypesAt. case_decide as Hi.
  - by rewrite Hi.
  - by destruct (Z.eqb_spec i 1).
Qed.

Lemma chainLoop_later_types db (s : St db) fuel since i cur :
  1 < i →
  ∀ x c ts r,
    EOutgoingRelations x c ts r ∈ trace db (chainLoop fuel since i cur) s →
    ts = ["cname_record"].
Proof.
  revert i cur. induction fuel as [|fuel IH]; intros i cur Hi x c ts r Hin.
  - by apply elem_of_nil in Hin.
  - destruct (Z.leb_spec i 10) as [Hle|Hgt].
    2:{ unfold trace in Hin. rewrite chainLoop_past in Hin by lia.
        by apply elem_of_nil in Hin. }
    destruct (outgoingRelations db s cur since (reltypesAt i))
      as [[|rel rels]|e] eqn:E.
    2:{ destruct (chainLoop_step db s fuel since i cur rel rels Hle E)
          as [_ Ht].
        rewrite Ht in Hin.
        apply elem_of_cons in Hin as [Heq|Hin].
        { injection Heq as _ _ -> _. rewrite reltypesAt_spec.
          case_decide; [lia | done]. }
        apply elem_of_app in Hin as [Hin|Hin].
        { by destruct (followFirst_trace db s since (rel :: rels) cur)
            as (_ & _ & _ & F); apply F in Hin. }
        eapply (IH (i + 1)); [lia | exact Hin]. }
    all: unfold trace in Hin; rewrite chainLoop_stop in Hin; [| done |];
      [| intros rel rels; rewrite E; done];
      apply list_elem_of_singleton in Hin; injection Hin as _ _ -> _;
      rewrite reltypesAt_spec; case_decide; [lia | done].
Qed.

(** C3: the rules of one hop.  The first query of the walk asks for
    [cname_record] and [srv_record] edges of the starting asset, every
    later query for [cname_record] edges only.  At a hop, when the query
    for the current asset gives no edge (it fails or is empty) the walk
    stops there with that asset and makes no further call; when it gives
    edges, the first edge whose target resolves is followed: the walk
    goes on from the resolved target at the next hop. *)
Theorem aliasChain_hop_rules (db : Store) (s : St db) (since : Z) (a : Asset) :
  (∃ rest,
     trace db (aliasChain since a) s =
       EOutgoingRelations a since ["cname_record"; "srv_record"]
         (outgoingRelations db s a since ["cname_record"; "srv_record"])
       :: rest ∧
     ∀ x c ts r, EOutgoingRelations x c ts r ∈ rest → ts = ["cname_record"]) ∧
  ∀ (fuel : nat) (i : Z) (cur : Asset),
    i ≤ 10 →
    let r := outgoingRelations db s cur since (reltypesAt i) in
    (noEdges db s since cur (reltypesAt i) →
       run db (chainLoop (S fuel) since i cur) s =
         (cur, s, [EOutgoingRelations cur since (reltypesAt i) r])) ∧
    (∀ pre rel post found,
       r = Ok (pre ++ rel :: post) →
       (∀ x, x ∈ pre → ∃ e, findById db s (ID (ToAsset x)) since = Err e) →
       findById db s (ID (ToAsset rel)) since = Ok found →
       run db (chainLoop (S fuel) since i cur) s =
         (value db (chainLoop fuel since (i + 1) found) s, s,
          EOutgoingRelations cur since (reltypesAt i) r
            :: ((λ x, EFindById (ID (ToAsset x)) since
                        (findById db s (ID (ToAsset x)) since)) <$> pre)
            ++ EFindById (ID (ToAsset rel)) since (Ok found)
            :: trace db (chainLoop fuel since (i + 1) found) s)).
Proof.
  split.
  - unfold aliasChain.
    change ["cname_record"; "srv_record"] with (reltypesAt 1).
    destruct (outgoingRelations db s a since (reltypesAt 1))
      as [[|rel rels]|e] eqn:E.
    2:{ destruct (chainLoop_step db s 9 since 1 a rel rels ltac:(lia) E)
          as [_ Ht].
        eexists. split; [rewrite Ht, ?E; reflexivity |].
        intros x c ts r [Hin|Hin]%elem_of_app.
        { by destruct (followFirst_trace db s since (rel :: rels) a)
            as (_ & _ & _ & F); apply F in Hin. }
        eapply (chainLoop_later_types db s 9 since 2); [lia | exact Hin]. }
    all: exists []; unfold trace; rewrite chainLoop_stop; [| lia |];
      [split; [by rewrite ?E | by intros ???? ?%elem_of_nil] |];
      intros rel rels; rewrite E; done.
  - intros fuel i cur Hi r. split.
    + intros Hno. by apply chainLoop_stop.
    + intros pre rel post found Hr Hpre Hrel. subst r.
      rewrite run_ro by apply chainLoop_ro.
      destruct (followFirst_resolved db s since pre rel post found cur
                  Hpre Hrel) as [Fv Ft].
      destruct pre as [|x pre].
      * destruct (chainLoop_step db s fuel since i cur rel post Hi Hr)
          as [Hv Ht].
        cbv zeta in Hv, Ht. rewrite Hv, Ht, Hr.
        change (rel :: post) with ([] ++ rel :: post). by rewrite Fv, Ft.
      * destruct (chainLoop_step db s fuel since i cur x
                    (pre ++ rel :: post) Hi Hr) as [Hv Ht].
        cbv zeta in Hv, Ht. rewrite Hv, Ht, Hr.
        change (x :: pre ++ rel :: post) with ((x :: pre) ++ rel :: post).
        rewrite Fv, Ft. by rewrite <- app_assoc.
Qed.

(** ** The stages of [NamesToAddrs] *)

Lemma findNames_extends db (s : St db) since names filter fqdns :
  ∃ l, value db (findNames since names filter fqdns) s = fqdns ++ l.
Proof.
  revert filter fqdns. induction names as [|name rest IH]; intros; simpl.
  - exists []. by rewrite app_nil_r.
  - case_decide; [apply IH |]. rewrite value_FindByContent.
    destruct (findByContent db s _ since) as [[|a0 l]|e]; try apply IH.
    destruct (IH ({[setKey name]} ∪ filter) (fqdns ++ [a0])) as [l' ->].
    exists (a0 :: l'). by rewrite <- app_assoc.
Qed.

Lemma findNames_nil db (s : St db) since names (filter : gset string) fqdns :
  value db (findNames since names filter fqdns) s = [] ↔
  fqdns = [] ∧
  ∀ n, n ∈ names → setKey n ∈ filter ∨ findable db s since n = false.
Proof.
  revert filter fqdns. induction names as [|name rest IH]; intros; simpl.
  - rewrite value_ret. split; [| tauto].
    intros ->. split; [done |]. by intros n ?%elem_of_nil.
  - case_decide as Hf.
    { rewrite IH. split; intros [-> Hall]; (split; [done |]).
      - intros n [->|Hn]%elem_of_cons; auto.
      - intros n Hn. apply Hall. by right. }
    rewrite value_FindByContent. unfold findable at 1.
    destruct (findByContent db s (OFQDN {| Name := name |}) since)
      as [[|a0 l]|e] eqn:E.
    2:{ split.
        - intros Hv.
          destruct (findNames_extends db s since rest
                      ({[setKey name]} ∪ filter)
                      (fqdns ++ [a0])) as [l' Hl].
          rewrite Hl in Hv. by destruct fqdns.
        - intros [_ Hall]. destruct (Hall name) as [?|Hff]; [by left | done |].
          unfold findable in Hff. by rewrite E in Hff. }
    all: rewrite IH; split; intros [-> Hall]; (split; [done |]);
      [ intros n [->|Hn]%elem_of_cons; [right; unfold findable; by rewrite E
                                      | auto]
      | intros n Hn; apply Hall; by right ].
Qed.

Lemma findNames_elem db (s : St db) since names filter fqdns a :
  a ∈ value db (findNames since names filter fqdns) s →
  a ∈ fqdns ∨
  ∃ n l, n ∈ names ∧
         findByContent db s (OFQDN {| Name := n |}) since = Ok (a :: l).
Proof.
  revert filter fqdns. induction names as [|name rest IH]; intros filter fqdns;
    simpl.
  - rewrite value_ret. auto.
  - assert (Hrest : ∀ f q, a ∈ value db (findNames since rest f q) s →
              a ∈ q ∨ ∃ n l, n ∈ name :: rest ∧
                findByContent db s (OFQDN {| Name := n |}) since = Ok (a :: l)).
    { intros f q Hin. destruct (IH f q Hin) as [?|(n & l & Hn & Hl)]; [by left |].
      right. exists n, l. split; [by right | done]. }
    case_decide; [apply Hrest |]. rewrite value_FindByContent.
    destruct (findByContent db s _ since) as [[|a0 l]|e] eqn:E;
      try apply Hrest.
    intros Hin. destruct (Hrest _ _ Hin) as [Hq|?]; [| by right].
    apply elem_of_app in Hq as [?|Hq%list_elem_of_singleton]; [by left |].
    subst a0. right. exists name, l. split; [by left | done].
Qed.

Lemma buildTargets_extends db (s : St db) since fqdns targets :
  ∃ l, value db (buildTargets since fqdns targets) s = targets ++ l.
Proof.
  revert targets. induction fqdns as [|a rest IH]; intros; cbn [buildTargets].
  - exists []. by rewrite app_nil_r.
  - destruct (Content a); try apply IH.
    rewrite value_bind by apply chainLoop_ro.
    destruct (IH (targets ++
      [{| fqdn := f; asset := value db (aliasChain since a) s |}]))
      as [l' ->].
    eexists. by rewrite <- app_assoc.
Qed.

Lemma buildTargets_nil db (s : St db) since fqdns targets :
  value db (buildTargets since fqdns targets) s = [] ↔
  targets = [] ∧ ∀ a, a ∈ fqdns → isFQDN (Content a) = false.
Proof.
  revert targets. induction fqdns as [|a rest IH]; intros; cbn [buildTargets].
  - rewrite value_ret. split; [| tauto].
    intros ->. split; [done |]. by intros n ?%elem_of_nil.
  - destruct (Content a) as [f| |] eqn:E.
    { rewrite value_bind by apply chainLoop_ro. split.
      - intros Hv. destruct (buildTargets_extends db s since rest (targets ++
          [{| fqdn := f; asset := value db (aliasChain since a) s |}]))
          as [l' Hl].
        rewrite Hl in Hv. by destruct targets.
      - intros [_ Hall]. specialize (Hall a ltac:(by left)).
        by rewrite E in Hall. }
    all: rewrite IH; split; intros [-> Hall]; (split; [done |]);
      [ intros n [->|Hn]%elem_of_cons; [by rewrite E | auto]
      | intros n Hn; apply Hall; by right ].
Qed.

Lemma buildTargets_elem db (s : St db) since fqdns targets tar :
  tar ∈ value db (buildTargets since fqdns targets) s →
  tar ∈ targets ∨
  ∃ a, a ∈ fqdns ∧ Content a = OFQDN (fqdn tar) ∧
       asset tar = value db (aliasChain since a) s.
Proof.
  revert targets. induction fqdns as [|a rest IH]; intros targets;
    cbn [buildTargets].
  - rewrite value_ret. auto.
  - assert (Hrest : ∀ q, tar ∈ value db (buildTargets since rest q) s →
              tar ∈ q ∨ ∃ a', a' ∈ a :: rest ∧ Content a' = OFQDN (fqdn tar) ∧
                asset tar = value db (aliasChain since a') s).
    { intros q Hin. destruct (IH q Hin) as [?|(a' & Ha & Hc)]; [by left |].
      right. exists a'. split; [by right | done]. }
    destruct (Content a) as [f| |] eqn:E; try apply Hrest.
    rewrite value_bind by apply chainLoop_ro.
    intros Hin. destruct (Hrest _ Hin) as [Hq|?]; [| by right].
    apply elem_of_app in Hq as [?|Hq%list_elem_of_singleton]; [by left |].
    subst tar. right. exists a. split; [by left | done].
Qed.

(** ** The aggregation, as a function of the store *)

Lemma ensureSet_insert name (m : gmap string (gset string)) :
  ensureSet name m = <[name := default ∅ (m !! name)]> m.
Proof.
  unfold ensureSet. destruct (m !! name) as [ss|] eqn:E; simpl; [| done].
  by rewrite insert_id.
Qed.

Lemma insertAddr_insert name t ss (m : gmap string (gset string)) :
  insertAddr name t (<[name := ss]> m) = <[name := {[setKey t]} ∪ ss]> m.
Proof.
  unfold insertAddr. apply map_eq. intros k.
  rewrite lookup_alter. case_decide as Hk.
  - subst k. by rewrite !lookup_insert_eq.
  - by rewrite !lookup_insert_ne.
Qed.

Lemma addrLoop_cons db (s : St db) since name rel rest m :
  value db (addrLoop since name (rel :: rest) m) s =
  value db (addrLoop since name rest
    (<[name := list_to_set (addrTexts db s since [rel])
               ∪ default ∅ (m !! name)]> m)) s.
Proof.
  cbn [addrLoop]. rewrite value_FindById, ensureSet_insert.
  unfold addrTexts. simpl.
  destruct (findById db s (ID (ToAsset rel)) since) as [found|e]; simpl.
  - destruct (Content found); simpl; rewrite ?insertAddr_insert;
      by rewrite ?(right_id_L ∅ (∪)), ?(left_id_L ∅ (∪)).
  - by rewrite (left_id_L ∅ (∪)).
Qed.

Lemma addrTexts_cons db (s : St db) since rel rest :
  addrTexts db s since (rel :: rest) =
  addrTexts db s since [rel] ++ addrTexts db s since rest.
Proof. unfold addrTexts. simpl. by rewrite app_nil_r. Qed.

Lemma addrLoop_value db (s : St db) since name rels m :
  value db (addrLoop since name rels m) s =
    match rels with
    | [] => m
    | _ => <[name := list_to_set (addrTexts db s since rels)
                     ∪ default ∅ (m !! name)]> m
    end.
Proof.
  revert m. induction rels as [|rel rest IH]; intros m; [done |].
  rewrite addrLoop_cons, IH, (addrTexts_cons db s since rel rest).
  destruct rest as [|rel' rest]; [by rewrite app_nil_r |].
  rewrite lookup_insert_eq, insert_insert_eq.
  generalize (addrTexts db s since [rel])
    (addrTexts db s since (rel' :: rest)) (default ∅ (m !! name)).
  intros A B X. simpl. f_equal.
  rewrite list_to_set_app_L, (assoc_L (∪)). f_equal. apply (comm_L (∪)).
Qed.

Lemma aggregate_value db (s : St db) since targets m :
  value db (aggregate since targets m) s = foldl (aggStep db s since) m targets.
Proof.
  revert m. induction targets as [|tar rest IH]; intros m;
    cbn [aggregate foldl]; [done |].
  rewrite value_OutgoingRelations. unfold aggStep at 2.
  destruct (outgoingRelations db s (asset tar) since _) as [[|rel rels]|e];
    lazy beta iota; [apply IH | | apply IH].
  rewrite value_bind by apply addrLoop_ro.
  by rewrite IH, addrLoop_value.
Qed.

Lemma aggStep_empty db (s : St db) since m tar :
  aggStep db s since m tar = ∅ ↔
  m = ∅ ∧ noEdges db s since (asset tar) ["a_record"; "aaaa_record"].
Proof.
  unfold aggStep, noEdges.
  destruct (outgoingRelations db s (asset tar) since _) as [[|rel rels]|e].
  2:{ split.
      - intros Hm. by apply insert_non_empty in Hm.
      - intros [_ Hno]. by destruct (Hno rel rels). }
  all: split; [intros ->; split; [done | by intros] | by intros [-> _]].
Qed.

Lemma aggFold_empty db (s : St db) since targets m :
  foldl (aggStep db s since) m targets = ∅ ↔
  m = ∅ ∧ ∀ tar, tar ∈ targets →
            noEdges db s since (asset tar) ["a_record"; "aaaa_record"].
Proof.
  revert m. induction targets as [|tar rest IH]; intros m; simpl.
  - split; [| tauto]. intros ->. split; [done |]. by intros t ?%elem_of_nil.
  - rewrite IH, aggStep_empty. split.
    + intros [[-> Ht] Hall]. split; [done |].
      intros t [->|Hin]%elem_of_cons; auto.
    + intros [-> Hall]. repeat split; [apply Hall; by left |].
      intros t Hin. apply Hall. by right.
Qed.

Lemma generatePairs_empty : generatePairsFromAddrMap ∅ = [].
Proof. unfold generatePairsFromAddrMap. by rewrite map_to_list_empty. Qed.

Lemma NamesToAddrs_value db (s : St db) since names :
  value db (NamesToAddrs since names) s =
    let fqdns := value db (findNames since names ∅ []) s in
    if (length fqdns =? 0)%nat then Err errNoNames else
    let targets := value db (buildTargets since fqdns []) s in
    if (length targets =? 0)%nat then Err errNoTargets else
    let nameAddrMap := value db (aggregate since targets ∅) s in
    if (size nameAddrMap =? 0)%nat then Err errNoPairs else
    let pairs := generatePairsFromAddrMap nameAddrMap in
    if (length pairs =? 0)%nat then Err errNoAddrs else Ok pairs.
Proof.
  unfold NamesToAddrs. cbv zeta.
  rewrite value_bind by apply findNames_ro.
  destruct (_ =? _)%nat; [done |].
  rewrite value_bind by apply buildTargets_ro.
  destruct (_ =? _)%nat; [done |].
  rewrite value_bind by apply aggregate_ro.
  destruct (_ =? _)%nat; [done |].
  by destruct (_ =? _)%nat.
Qed.

Lemma length_zero {A} (l : list A) : (length l =? 0)%nat = true ↔ l = [].
Proof. destruct l; simpl; split; done. Qed.

Lemma size_zero (m : gmap string (gset string)) :
  (size m =? 0)%nat = true ↔ m = ∅.
Proof. rewrite Nat.eqb_eq. apply map_size_empty_iff. Qed.

(** The cases of the cascade: most are closed by the facts at hand. *)
Ltac solve_cases :=
  first
    [ done
    | tauto
    | by intros [? ?]
    | by intros [= ->]
    | by intros [_ ->]
    | intros [Hne _]; destruct Hne; auto; fail
    | intros; congruence
    | intros; exfalso; auto; fail ].

(** C5: the four error conditions.  [NamesToAddrs] answers "no names to
    query" exactly when no name of the list (the empty list included) is
    findable, that is, when the lookup of each fails or is empty.
    Otherwise it answers "no targets to query" exactly when no target was
    derived (none of the assets found holds a name), "no pairs to
    process" exactly when targets were derived and the aggregation gave
    an empty map (no target has an address edge), and "no addresses were
    discovered" exactly when the map is not empty and the pair list is.
    In every other case the pair list is returned. *)
Theorem NamesToAddrs_error_conditions (db : Store) (s : St db) (since : Z)
    (names : list string) :
  let r := value db (NamesToAddrs since names) s in
  let fqdns := value db (findNames since names ∅ []) s in
  let targets := value db (buildTargets since fqdns []) s in
  let nameAddrMap := value db (aggregate since targets ∅) s in
  let pairs := generatePairsFromAddrMap nameAddrMap in
  (r = Err errNoNames ↔ ∀ n, n ∈ names → findable db s since n = false) ∧
  (fqdns = [] ↔ ∀ n, n ∈ names → findable db s since n = false) ∧
  (r = Err errNoTargets ↔ fqdns ≠ [] ∧ targets = []) ∧
  (targets = [] ↔ ∀ a, a ∈ fqdns → isFQDN (Content a) = false) ∧
  (r = Err errNoPairs ↔ targets ≠ [] ∧ nameAddrMap = ∅) ∧
  (nameAddrMap = ∅ ↔
     ∀ tar, tar ∈ targets →
       noEdges db s since (asset tar) ["a_record"; "aaaa_record"]) ∧
  (r = Err errNoAddrs ↔ nameAddrMap ≠ ∅ ∧ pairs = []) ∧
  (∀ ps, r = Ok ps ↔ pairs ≠ [] ∧ ps = pairs).
Proof.
  intros r fqdns targets nameAddrMap pairs.
  assert (Hf : fqdns = [] ↔ ∀ n, n ∈ names → findable db s since n = false).
  { unfold fqdns. rewrite findNames_nil. split.
    - intros [_ Hall] n Hn. destruct (Hall n Hn) as [Hin|?]; [| done].
      by apply not_elem_of_empty in Hin.
    - intros Hall. split; [done |]. intros n Hn. right. by apply Hall. }
  assert (Ht : targets = [] ↔ ∀ a, a ∈ fqdns → isFQDN (Content a) = false).
  { unfold targets. rewrite buildTargets_nil. tauto. }
  assert (Hm : nameAddrMap = ∅ ↔ ∀ tar, tar ∈ targets →
             noEdges db s since (asset tar) ["a_record"; "aaaa_record"]).
  { unfold nameAddrMap. rewrite aggregate_value, aggFold_empty. tauto. }
  assert (Ht0 : fqdns = [] → targets = []).
  { intros E. apply Ht. rewrite E. by intros a ?%elem_of_nil. }
  assert (Hm0 : targets = [] → nameAddrMap = ∅).
  { intros E. apply Hm. rewrite E. by intros a ?%elem_of_nil. }
  assert (Hp0 : nameAddrMap = ∅ → pairs = []).
  { intros E. unfold pairs. rewrite E. apply generatePairs_empty. }
  assert (Hr : r =
    if (length fqdns =? 0)%nat then Err errNoNames else
    if (length targets =? 0)%nat then Err errNoTargets else
    if (size nameAddrMap =? 0)%nat then Err errNoPairs else
    if (length pairs =? 0)%nat then Err errNoAddrs else Ok pairs).
  { apply NamesToAddrs_value. }
  rewrite <- Hf.
  destruct (length fqdns =? 0)%nat eqn:E1.
  { apply length_zero in E1. rewrite Hr. repeat split; solve_cases. }
  assert (N1 : fqdns ≠ []) by (intros ?%length_zero; congruence).
  destruct (length targets =? 0)%nat eqn:E2.
  { apply length_zero in E2. rewrite Hr. repeat split; solve_cases. }
  assert (N2 : targets ≠ []) by (intros ?%length_zero; congruence).
  destruct (size nameAddrMap =? 0)%nat eqn:E3.
  { apply size_zero in E3. rewrite Hr. repeat split; solve_cases. }
  assert (N3 : nameAddrMap ≠ ∅) by (intros ?%size_zero; congruence).
  destruct (length pairs =? 0)%nat eqn:E4.
  { apply length_zero in E4. rewrite Hr. repeat split; solve_cases. }
  assert (N4 : pairs ≠ []) by (intros ?%length_zero; congruence).
  rewrite Hr. repeat split; solve_cases.
Qed.

Lemma buildTargets_complete db (s : St db) since fqdns targets a f :
  a ∈ fqdns → Content a = OFQDN f →
  {| fqdn := f; asset := value db (aliasChain since a) s |}
    ∈ value db (buildTargets since fqdns targets) s.
Proof.
  revert targets. induction fqdns as [|a0 rest IH]; intros acc Ha Hc;
    [by apply elem_of_nil in Ha |].
  cbn [buildTargets].
  apply elem_of_cons in Ha as [->|Ha].
  - rewrite Hc, value_bind by apply chainLoop_ro.
    destruct (buildTargets_extends db s since rest
      (acc ++ [{| fqdn := f; asset := value db (aliasChain since a0) s |}]))
      as [l ->].
    rewrite !elem_of_app, list_elem_of_singleton. auto.
  - destruct (Content a0); [rewrite value_bind by apply chainLoop_ro | ..];
      by apply IH.
Qed.

(** ** What the aggregation stores, and under which key *)

Lemma addrTexts_elem db (s : St db) since rels addr :
  addr ∈ addrTexts db s since rels ↔
  ∃ rel found ip,
    rel ∈ rels ∧ findById db s (ID (ToAsset rel)) since = Ok found ∧
    Content found = OIPAddress ip ∧ addr = setKey (AddrString (Address ip)).
Proof.
  unfold addrTexts. rewrite list_elem_of_bind. split.
  - intros (rel & Hin & Hrel).
    destruct (findById db s (ID (ToAsset rel)) since) as [found|e] eqn:E;
      [| by apply elem_of_nil in Hin].
    destruct (Content found) as [|ip|] eqn:C;
      try by apply elem_of_nil in Hin.
    apply list_elem_of_singleton in Hin. by exists rel, found, ip.
  - intros (rel & found & ip & Hrel & E & C & ->).
    exists rel. rewrite E, C. split; [by left | done].
Qed.

Lemma aggStep_lookup db (s : St db) since m tar k :
  aggStep db s since m tar !! k =
    match outgoingRelations db s (asset tar) since ["a_record"; "aaaa_record"]
    with
    | Ok (rel :: rels) =>
        if decide (Name (fqdn tar) = k) then
          Some (list_to_set (addrTexts db s since (rel :: rels))
                ∪ default ∅ (m !! k))
        else m !! k
    | _ => m !! k
    end.
Proof.
  unfold aggStep.
  destruct (outgoingRelations db s (asset tar) since _) as [[|rel rels]|e];
    try done.
  case_decide as Hk; [subst k; by rewrite lookup_insert_eq |].
  by rewrite lookup_insert_ne.
Qed.

(** Every address of the final map came from the initial map or from an
    address edge of a target with that name. *)
Lemma aggFold_sound db (s : St db) since targets m k set addr :
  foldl (aggStep db s since) m targets !! k = Some set → addr ∈ set →
  (∃ set0, m !! k = Some set0 ∧ addr ∈ set0) ∨
  ∃ tar rels,
    tar ∈ targets ∧ Name (fqdn tar) = k ∧
    outgoingRelations db s (asset tar) since ["a_record"; "aaaa_record"]
      = Ok rels ∧
    addr ∈ addrTexts db s since rels.
Proof.
  revert m. induction targets as [|tar rest IH]; intros m Hk Hin; simpl in Hk.
  - left. eauto.
  - destruct (IH _ Hk Hin) as [(set0 & H0 & Hin0)|(t & rels & Ht & Hrest)].
    2:{ right. exists t, rels. split; [by right | done]. }
    rewrite aggStep_lookup in H0.
    destruct (outgoingRelations db s (asset tar) since _)
      as [[|rel rels]|e] eqn:E; try (left; eauto; fail).
    case_decide as Hname; [| left; eauto].
    injection H0 as <-. apply elem_of_union in Hin0 as [Hin0|Hin0].
    + right. exists tar, (rel :: rels). apply elem_of_list_to_set in Hin0.
      repeat split; try done. by left.
    + left. destruct (m !! k) as [set0|]; simpl in Hin0; [eauto |].
      by apply not_elem_of_empty in Hin0.
Qed.

(** What is stored under a key stays there. *)
Lemma aggFold_mono db (s : St db) since targets m k set0 :
  m !! k = Some set0 →
  ∃ set, foldl (aggStep db s since) m targets !! k = Some set ∧ set0 ⊆ set.
Proof.
  revert m set0. induction targets as [|tar rest IH]; intros m set0 Hk; simpl.
  - eauto.
  - assert (∃ set1, aggStep db s since m tar !! k = Some set1 ∧ set0 ⊆ set1)
      as (set1 & H1 & Hsub).
    { rewrite aggStep_lookup.
      destruct (outgoingRelations db s (asset tar) since _)
        as [[|rel rels]|e]; eauto.
      case_decide; eauto. rewrite Hk. simpl. eexists; split; [done |].
      apply union_subseteq_r. }
    destruct (IH _ _ H1) as (set & Hset & Hsub').
    exists set. split; [done |]. by transitivity set1.
Qed.

(** Every address below a target is stored under the name of the
    target. *)
Lemma aggFold_complete db (s : St db) since targets m tar rels addr :
  tar ∈ targets →
  outgoingRelations db s (asset tar) since ["a_record"; "aaaa_record"]
    = Ok rels →
  addr ∈ addrTexts db s since rels →
  ∃ set, foldl (aggStep db s since) m targets !! Name (fqdn tar) = Some set ∧
         addr ∈ set.
Proof.
  revert m. induction targets as [|t rest IH]; intros m Hin Hrels Haddr.
  - by apply elem_of_nil in Hin.
  - apply elem_of_cons in Hin as [<-|Hin]; [| by apply IH].
    simpl.
    destruct rels as [|rel rels]; [by apply elem_of_nil in Haddr |].
    destruct (aggFold_mono db s since rest (aggStep db s since m tar)
      (Name (fqdn tar))
      (list_to_set (addrTexts db s since (rel :: rels))
       ∪ default ∅ (m !! Name (fqdn tar)))) as (set & Hset & Hsub).
    { rewrite aggStep_lookup, Hrels. by case_decide. }
    exists set. split; [done |]. apply Hsub, elem_of_union_l.
    by apply elem_of_list_to_set.
Qed.

Lemma combos_elem (m : gmap string (gset string)) name addr :
  (name, addr) ∈ combos m ↔ ∃ set, m !! name = Some set ∧ addr ∈ set.
Proof.
  unfold combos. rewrite list_elem_of_bind. split.
  - intros ([n set] & Hin & Hm). apply list_elem_of_fmap in Hin as (a & [= -> ->] & Ha).
    exists set. split; [by apply elem_of_map_to_list | by apply elem_of_elements].
  - intros (set & Hm & Ha). exists (name, set).
    split; [| by apply elem_of_map_to_list].
    apply list_elem_of_fmap. exists addr. split; [done | by apply elem_of_elements].
Qed.

Lemma combos_NoDup (m : gmap string (gset string)) : NoDup (combos m).
Proof.
  unfold combos. apply NoDup_bind.
  - intros [n1 s1] [n2 s2] [n a] H1 H2 Hy1 Hy2.
    apply list_elem_of_fmap in Hy1 as (a1 & [= -> ->] & _).
    apply list_elem_of_fmap in Hy2 as (a2 & [= -> ->] & _).
    apply elem_of_map_to_list in H1, H2. congruence.
  - intros [n set] _. apply NoDup_fmap_2; [| apply NoDup_elements].
    by intros a1 a2 [= ->].
  - apply NoDup_map_to_list.
Qed.

(** A key of the final map was a key at the start or is the name of a
    target. *)
Lemma aggFold_keys db (s : St db) since targets m name :
  is_Some (foldl (aggStep db s since) m targets !! name) →
  is_Some (m !! name) ∨ ∃ t, t ∈ targets ∧ Name (fqdn t) = name.
Proof.
  revert m. induction targets as [|t ts IH]; intros m Hs; simpl in Hs;
    [by left |].
  destruct (IH _ Hs) as [Hm|(t' & Ht' & Hn)].
  2:{ right. exists t'. split; [by right | done]. }
  rewrite aggStep_lookup in Hm.
  destruct (outgoingRelations db s (asset t) since _) as [[|rel rels]|e];
    auto.
  case_decide; auto. right. exists t. split; [by left | done].
Qed.

Section Origin.
Variables (db : Store) (s : St db) (since : Z) (names : list string).

(** The store answers a lookup of an input name with assets of that
    name. *)
Hypothesis Hstore :
  ∀ n a l, n ∈ names →
    findByContent db s (OFQDN {| Name := n |}) since = Ok (a :: l) →
    Content a = OFQDN {| Name := n |}.

Let fqdns := value db (findNames since names ∅ []) s.
Let targets := value db (buildTargets since fqdns []) s.

Lemma fqdns_names a f : a ∈ fqdns → Content a = OFQDN f → Name f ∈ names.
Proof.
  intros Ha Hc.
  destruct (findNames_elem db s since names ∅ [] a Ha)
    as [?%elem_of_nil|(n & l & Hn & Hl)]; [done |].
  rewrite (Hstore n a l Hn Hl) in Hc. by injection Hc as <-.
Qed.

Lemma targets_origin tar :
  tar ∈ targets →
  ∃ a, a ∈ fqdns ∧ Content a = OFQDN (fqdn tar) ∧
       asset tar = value db (aliasChain since a) s.
Proof.
  intros Ht.
  by destruct (buildTargets_elem db s since fqdns [] tar Ht)
    as [?%elem_of_nil|?].
Qed.

Lemma nameAddrMap_keys name :
  is_Some (value db (aggregate since targets ∅) s !! name) → name ∈ names.
Proof.
  rewrite aggregate_value. intros Hs.
  destruct (aggFold_keys db s since targets ∅ name Hs)
    as [[? Hm]|(t & Ht & <-)]; [by rewrite lookup_empty in Hm |].
  destruct (targets_origin t Ht) as (a & Ha & Hc & _). by eapply fqdns_names.
Qed.

End Origin.

(** C4: the aggregation is keyed by the originating name and holds each
    address once.  Provided the store answers a lookup by content with
    assets of that content, the map built by [NamesToAddrs] has only
    input names as keys; an address text is stored under a name exactly
    when an address edge of the asset at the end of the alias chain of
    the asset found for that name leads to an address asset with that
    text; and no (name, address text) combination occurs twice, however
    many edges lead to assets with that address. *)
Theorem aggregation_keyed_by_origin (db : Store) (s : St db) (since : Z)
    (names : list string) :
  (∀ n a l, n ∈ names →
     findByContent db s (OFQDN {| Name := n |}) since = Ok (a :: l) →
     Content a = OFQDN {| Name := n |}) →
  let fqdns := value db (findNames since names ∅ []) s in
  let targets := value db (buildTargets since fqdns []) s in
  let nameAddrMap := value db (aggregate since targets ∅) s in
  (∀ name, is_Some (nameAddrMap !! name) → name ∈ names) ∧
  (∀ name addr,
     (∃ set, nameAddrMap !! name = Some set ∧ addr ∈ set) ↔
     ∃ a rels,
       a ∈ fqdns ∧ Content a = OFQDN {| Name := name |} ∧
       outgoingRelations db s (value db (aliasChain since a) s) since
         ["a_record"; "aaaa_record"] = Ok rels ∧
       addr ∈ addrTexts db s since rels) ∧
  NoDup (combos nameAddrMap).
Proof.
  intros Hstore fqdns targets nameAddrMap.
  split; [| split].
  - by apply nameAddrMap_keys.
  - intros name addr. unfold nameAddrMap. rewrite aggregate_value. split.
    + intros (set & Hset & Haddr).
      destruct (aggFold_sound db s since targets ∅ name set addr Hset Haddr)
        as [(set0 & H0 & _)|(t & rels & Ht & <- & Hrels & Hin)].
      { by rewrite lookup_empty in H0. }
      destruct (targets_origin db s since names t Ht)
        as (a & Ha & Hc & Hasset).
      exists a, rels. rewrite <- Hasset. by destruct (fqdn t).
    + intros (a & rels & Ha & Hc & Hrels & Hin).
      pose proof (buildTargets_complete db s since fqdns [] a _ Ha Hc) as Ht.
      by destruct (aggFold_complete db s since targets ∅ _ rels addr Ht
                     Hrels Hin) as (set & Hset & Haddr); exists set.
  - apply combos_NoDup.
Qed.

(** ** Pair generation *)

Lemma pairsOf_elem name addrs p :
  p ∈ pairsOf name addrs ↔
  ∃ addr ip, addr ∈ addrs ∧ ParseAddr addr = Some ip ∧
             p = {| PairFQDN := {| Name := name |}; PairAddr := tagAddress ip |}.
Proof.
  unfold pairsOf. rewrite list_elem_of_bind. split.
  - intros (addr & Hp & Hin). destruct (ParseAddr addr) as [ip|] eqn:E;
      [| by apply elem_of_nil in Hp].
    apply list_elem_of_singleton in Hp. by exists addr, ip.
  - intros (addr & ip & Hin & E & ->). exists addr. rewrite E.
    split; [by left | done].
Qed.

Lemma pairsOf_length name addrs :
  length (pairsOf name addrs) =
  length (List.filter parses ((λ addr, (name, addr)) <$> addrs)).
Proof.
  induction addrs as [|addr rest IH]; [done |].
  change (pairsOf name (addr :: rest)) with
    (match ParseAddr addr with
     | Some ip => [{| PairFQDN := {| Name := name |};
                      PairAddr := tagAddress ip |}]
     | None => []
     end ++ pairsOf name rest).
  rewrite length_app, IH. simpl. unfold parses at 2. simpl.
  by destruct (ParseAddr addr).
Qed.

Lemma generatePairs_length (l : list (string * gset string)) :
  length (l ≫= λ '(name, set), pairsOf name (elements set)) =
  length (List.filter parses
            (l ≫= λ '(name, set), (λ addr, (name, addr)) <$> elements set)).
Proof.
  induction l as [|[name set] rest IH]; [done |].
  rewrite !bind_cons, List.filter_app, !length_app, IH.
  by rewrite pairsOf_length.
Qed.

Lemma generatePairs_elem (addrMap : gmap string (gset string)) p :
  p ∈ generatePairsFromAddrMap addrMap ↔
  ∃ set addr ip,
    addrMap !! Name (PairFQDN p) = Some set ∧ addr ∈ set ∧
    ParseAddr addr = Some ip ∧ PairAddr p = tagAddress ip.
Proof.
  unfold generatePairsFromAddrMap. rewrite list_elem_of_bind. split.
  - intros ([name set] & Hp & Hm). apply elem_of_map_to_list in Hm.
    apply pairsOf_elem in Hp as (addr & ip & Hin & E & ->). simpl.
    exists set, addr, ip. by rewrite elem_of_elements in Hin.
  - intros (set & addr & ip & Hm & Hin & E & Hp).
    exists (Name (PairFQDN p), set).
    split; [| by apply elem_of_map_to_list].
    apply pairsOf_elem. exists addr, ip. rewrite elem_of_elements.
    repeat split; try done. destruct p as [[n] a]. simpl in *. by subst a.
Qed.

(** C6: pairs come from parsed addresses only.  A pair is generated
    exactly for the combinations of a name and an address text of its set
    whose text parses; the pair carries the parsed address, tagged "IPv4"
    when that address is an IPv4 address and "IPv6" when it is not and is
    an IPv6 address.  A text that does not parse gives no pair: the list
    has one pair per combination that parses, and none else. *)
Theorem generatePairs_only_parsed (addrMap : gmap string (gset string)) :
  (∀ p, p ∈ generatePairsFromAddrMap addrMap ↔
     ∃ set addr ip,
       addrMap !! Name (PairFQDN p) = Some set ∧ addr ∈ set ∧
       ParseAddr addr = Some ip ∧ PairAddr p = tagAddress ip) ∧
  (∀ ip, Address (tagAddress ip) = ip ∧
         (Is4 ip = true → Type_ (tagAddress ip) = "IPv4") ∧
         (Is4 ip = false → Is6 ip = true → Type_ (tagAddress ip) = "IPv6")) ∧
  length (generatePairsFromAddrMap addrMap) =
    length (List.filter parses (combos addrMap)) ∧
  (∀ name set, addrMap !! name = Some set →
     (∀ addr, addr ∈ set → ParseAddr addr = None) →
     ∀ p, p ∈ generatePairsFromAddrMap addrMap → Name (PairFQDN p) ≠ name).
Proof.
  pose proof (generatePairs_elem addrMap) as Hiff.
  split; [exact Hiff |]. split; [| split].
  - intros ip. unfold tagAddress. simpl. repeat split.
    + by intros ->.
    + by intros -> ->.
  - unfold generatePairsFromAddrMap, combos. apply generatePairs_length.
  - intros name set Hm Hnone p Hp Hname.
    apply Hiff in Hp as (set' & addr & ip & Hm' & Hin & E & _).
    rewrite Hname, Hm in Hm'. injection Hm' as <-.
    rewrite (Hnone addr Hin) in E. done.
Qed.

(** ** Names are looked up as given *)



Lemma run_bind_eta {A B : Type} (db : Store) (m : Prog A) (f : A → Prog B)
    (s : St db) :
  run db (m ≫= f) s =
    (value db (f (value db m s)) (final db m s),
     final db (f (value db m s)) (final db m s),
     trace db m s ++ trace db (f (value db m s)) (final db m s)).
Proof.
  rewrite run_bind, (run_eta db m s).
  by rewrite (run_eta db (f _) (final db m s)).
Qed.

Lemma trace_bind_eta {A B : Type} (db : Store) (m : Prog A) (f : A → Prog B)
    (s : St db) :
  trace db (m ≫= f) s =
    trace db m s ++ trace db (f (value db m s)) (final db m s).
Proof. unfold trace at 1. by rewrite run_bind_eta. Qed.

Lemma processNames_queue {Queue : Type} (IsDomainInScope : string → bool)
    (AppendToDBQueue : Prog (option (string * Asset)) → Queue → Queue)
    names (queue : Queue) :
  processNames IsDomainInScope AppendToDBQueue names queue =
  foldl (λ q n, AppendToDBQueue (callback n) q) queue
    (List.filter (keeps IsDomainInScope) (normalize <$> names)).
Proof.
  unfold keeps.
  revert queue. induction names as [|name rest IH]; intros queue;
    cbn [processNames]; [done |].
  cbv zeta. rewrite fmap_cons. cbn [List.filter].
  destruct (negb (String.eqb (normalize name) "")
            && IsDomainInScope (normalize name)); apply IH.
Qed.

Lemma callback_run (n : string) (db : Store) (s : St db) :
  run db (callback n) s =
    (let '(s', r) :=
       create db s None "" (Some (OFQDN {| Name := n |})) in
     (match r with Ok a => Some (n, a) | Err _ => None end, s',
      [ECreate None "" (Some (OFQDN {| Name := n |})) r])).
Proof.
  unfold callback. simpl. by destruct (create db s None "" _) as [s1 [a|e]].
Qed.


(** ** The write path *)

Lemma run_UpsertAddress (db : Store) (s : St db) addr :
  run db (UpsertAddress addr) s =
    (let '(s', r) := create db s None "" (OIPAddress <$> buildIPAddress addr) in
     (r, s', [ECreate None "" (OIPAddress <$> buildIPAddress addr) r])).
Proof. unfold UpsertAddress. simpl. by destruct (create db s _ _ _). Qed.

Lemma buildIPAddress_unparsed addr :
  ParseAddr addr = None → buildIPAddress addr = None.
Proof. unfold buildIPAddress. by intros ->. Qed.

(** C1, where the code departs from it: on a text that does not parse
    [UpsertAddress] still calls [Create], with a nil payload and no
    parent, and returns whatever the store answers; the state of the
    store is the one that call leaves. *)
Theorem UpsertAddress_unparsed_calls_Create (db : Store) (s : St db)
    (addr : string) :
  ParseAddr addr = None →
  run db (UpsertAddress addr) s =
    (let '(s', r) := create db s None "" None in
     (r, s', [ECreate None "" None r])).
Proof.
  intros Hp. rewrite run_UpsertAddress.
  by rewrite (buildIPAddress_unparsed addr Hp).
Qed.

Section WritePath.
Variable UpsertFQDN : string → Prog (result Asset).

Lemma run_addrRecord_name_error (db : Store) (s : St db) fqdn addr rrtype e :
  value db (UpsertFQDN fqdn) s = Err e →
  run db (addrRecord UpsertFQDN fqdn addr rrtype) s =
    (Err e, final db (UpsertFQDN fqdn) s, trace db (UpsertFQDN fqdn) s).
Proof.
  intros Hv. unfold addrRecord. rewrite run_bind_eta, Hv.
  unfold value, final, trace. simpl. by rewrite app_nil_r.
Qed.

Lemma run_addrRecord_bad_address (db : Store) (s : St db) fqdn addr rrtype
    name :
  value db (UpsertFQDN fqdn) s = Ok name →
  buildIPAddress addr = None →
  run db (addrRecord UpsertFQDN fqdn addr rrtype) s =
    (Err errBuild, final db (UpsertFQDN fqdn) s, trace db (UpsertFQDN fqdn) s).
Proof.
  intros Hv Hb. unfold addrRecord. rewrite run_bind_eta, Hv, Hb.
  unfold value, final, trace. simpl. by rewrite app_nil_r.
Qed.

Lemma run_addrRecord_create (db : Store) (s : St db) fqdn addr rrtype
    name ip :
  value db (UpsertFQDN fqdn) s = Ok name →
  buildIPAddress addr = Some ip →
  run db (addrRecord UpsertFQDN fqdn addr rrtype) s =
    (let '(s', r) := create db (final db (UpsertFQDN fqdn) s) (Some name)
                       rrtype (Some (OIPAddress ip)) in
     (r, s', trace db (UpsertFQDN fqdn) s
             ++ [ECreate (Some name) rrtype (Some (OIPAddress ip)) r])).
Proof.
  intros Hv Hb. unfold addrRecord. rewrite run_bind_eta, Hv, Hb.
  unfold value, final, trace. simpl.
  by destruct (create db _ (Some name) rrtype _).
Qed.

End WritePath.

(** C10: the name survives a bad address.  When [UpsertFQDN] has
    upserted the name and the address text does not parse, [UpsertA] and
    [UpsertAAAA] return the error "failed to build the OAM IPAddress";
    the store is left in the state in which the upsert of the name put
    it, and no call follows that upsert: no address asset and no edge is
    created. *)
Theorem upsert_keeps_name_on_bad_address
    (UpsertFQDN : string → Prog (result Asset)) (db : Store) (s : St db)
    (fqdn addr : string) (name : Asset) :
  value db (UpsertFQDN fqdn) s = Ok name →
  ParseAddr addr = None →
  run db (UpsertA UpsertFQDN fqdn addr) s =
    (Err errBuild, final db (UpsertFQDN fqdn) s,
     trace db (UpsertFQDN fqdn) s) ∧
  run db (UpsertAAAA UpsertFQDN fqdn addr) s =
    (Err errBuild, final db (UpsertFQDN fqdn) s,
     trace db (UpsertFQDN fqdn) s).
Proof.
  intros Hv Hp. unfold UpsertA, UpsertAAAA.
  split; eapply run_addrRecord_bad_address; eauto using buildIPAddress_unparsed.
Qed.

Lemma NamesToAddrs_own_errors db (s : St db) since names e :
  value db (NamesToAddrs since names) s = Err e →
  e ∈ [errNoNames; errNoTargets; errNoPairs; errNoAddrs].
Proof.
  rewrite NamesToAddrs_value. cbv zeta.
  destruct (length _ =? 0)%nat; [intros [= <-]; by left |].
  destruct (length _ =? 0)%nat; [intros [= <-]; right; by left |].
  destruct (size _ =? 0)%nat; [intros [= <-]; do 2 right; by left |].
  destruct (length _ =? 0)%nat; [intros [= <-]; do 3 right; by left |].
  done.
Qed.

(** C8, as the code has it.  On the write path the store's answer comes
    back unchanged and no call is repeated: [UpsertAddress] makes one
    [Create] call and returns its answer; [addrRecord] returns the error
    of [UpsertFQDN] and stops, or makes one [Create] call after it and
    returns its answer.  [NamesToAddrs] returns no store error at all:
    when it fails, it fails with one of its own four conditions. *)
Theorem store_errors_by_path :
  (∀ (db : Store) (s : St db) addr,
     run db (UpsertAddress addr) s =
       (let '(s', r) :=
          create db s None "" (OIPAddress <$> buildIPAddress addr) in
        (r, s', [ECreate None "" (OIPAddress <$> buildIPAddress addr) r]))) ∧
  (∀ (UpsertFQDN : string → Prog (result Asset)) (db : Store) (s : St db)
     fqdn addr rrtype e,
     value db (UpsertFQDN fqdn) s = Err e →
     run db (addrRecord UpsertFQDN fqdn addr rrtype) s =
       (Err e, final db (UpsertFQDN fqdn) s, trace db (UpsertFQDN fqdn) s)) ∧
  (∀ (UpsertFQDN : string → Prog (result Asset)) (db : Store) (s : St db)
     fqdn addr rrtype name ip,
     value db (UpsertFQDN fqdn) s = Ok name →
     buildIPAddress addr = Some ip →
     run db (addrRecord UpsertFQDN fqdn addr rrtype) s =
       (let '(s', r) := create db (final db (UpsertFQDN fqdn) s) (Some name)
                          rrtype (Some (OIPAddress ip)) in
        (r, s', trace db (UpsertFQDN fqdn) s
                ++ [ECreate (Some name) rrtype (Some (OIPAddress ip)) r]))) ∧
  (∀ (db : Store) (s : St db) since names e,
     value db (NamesToAddrs since names) s = Err e →
     e ∈ [errNoNames; errNoTargets; errNoPairs; errNoAddrs]).
Proof.
  split; [apply run_UpsertAddress |].
  split; [apply run_addrRecord_name_error |].
  split; [apply run_addrRecord_create | apply NamesToAddrs_own_errors].
Qed.

(** ** Further properties *)

(** [buildIPAddress] classifies: it gives an address exactly when the
    text parses to an IPv4 or an IPv6 address, tagged with its family. *)
Theorem buildIPAddress_classifies (addr : string) (ip : IPAddress) :
  buildIPAddress addr = Some ip ↔
  ParseAddr addr = Some (Address ip) ∧
  (Is4 (Address ip) = true ∧ Type_ ip = "IPv4" ∨
   Is4 (Address ip) = false ∧ Is6 (Address ip) = true ∧ Type_ ip = "IPv6").
Proof.
  unfold buildIPAddress. destruct (ParseAddr addr) as [a|]; [| split].
  - destruct (Is4 a) eqn:E4; [| destruct (Is6 a) eqn:E6]; split.
    + intros [= <-]. simpl. auto.
    + intros [[= ->] [[_ Ht]|[? _]]]; [| congruence].
      destruct ip as [x t]. simpl in *. by subst t.
    + intros [= <-]. simpl. auto.
    + intros [[= ->] [[? _]|(_ & _ & Ht)]]; [congruence |].
      destruct ip as [x t]. simpl in *. by subst t.
    + done.
    + intros [[= ->] [[? _]|(_ & ? & _)]]; congruence.
  - done.
  - by intros [? _].
Qed.

(** On a text that parses to an address of either family, [UpsertA] and
    [UpsertAAAA] make one [Create] call after the upsert of the name:
    the address is created below the name asset, by an edge of type
    [a_record] or [aaaa_record]; the answer of that call is returned. *)
Theorem upsert_record_creates_edge
    (UpsertFQDN : string → Prog (result Asset)) (db : Store) (s : St db)
    (fqdn addr : string) (name : Asset) (ip : IPAddress) :
  value db (UpsertFQDN fqdn) s = Ok name →
  buildIPAddress addr = Some ip →
  run db (UpsertA UpsertFQDN fqdn addr) s =
    (let '(s', r) := create db (final db (UpsertFQDN fqdn) s) (Some name)
                       "a_record" (Some (OIPAddress ip)) in
     (r, s', trace db (UpsertFQDN fqdn) s
             ++ [ECreate (Some name) "a_record" (Some (OIPAddress ip)) r])) ∧
  run db (UpsertAAAA UpsertFQDN fqdn addr) s =
    (let '(s', r) := create db (final db (UpsertFQDN fqdn) s) (Some name)
                       "aaaa_record" (Some (OIPAddress ip)) in
     (r, s', trace db (UpsertFQDN fqdn) s
             ++ [ECreate (Some name) "aaaa_record" (Some (OIPAddress ip)) r])).
Proof.
  intros Hv Hb. unfold UpsertA, UpsertAAAA.
  split; by apply run_addrRecord_create.
Qed.

Lemma NamesToAddrs_ok db (s : St db) since names ps :
  value db (NamesToAddrs since names) s = Ok ps →
  ps ≠ [] ∧
  ps = generatePairsFromAddrMap
         (value db (aggregate since
            (value db (buildTargets since
               (value db (findNames since names ∅ []) s) []) s) ∅) s).
Proof.
  rewrite NamesToAddrs_value. cbv zeta.
  destruct (length _ =? 0)%nat; [done |].
  destruct (length _ =? 0)%nat; [done |].
  destruct (size _ =? 0)%nat; [done |].
  destruct (length (generatePairsFromAddrMap _) =? 0)%nat eqn:E; [done |].
  intros [= <-]. split; [| done]. intros Hnil%length_zero. congruence.
Qed.

(** What [NamesToAddrs] returns is sound: provided the store answers a
    lookup by content with assets of that content, a list returned is
    not empty, and each of its pairs joins a name of the input list with
    an address that was parsed from a text, tagged with its family. *)
Theorem NamesToAddrs_pairs_sound (db : Store) (s : St db) (since : Z)
    (names : list string) (ps : list NameAddrPair) :
  (∀ n a l, n ∈ names →
     findByContent db s (OFQDN {| Name := n |}) since = Ok (a :: l) →
     Content a = OFQDN {| Name := n |}) →
  value db (NamesToAddrs since names) s = Ok ps →
  ps ≠ [] ∧
  ∀ p, p ∈ ps →
    Name (PairFQDN p) ∈ names ∧
    ∃ addr ip, ParseAddr addr = Some ip ∧ PairAddr p = tagAddress ip.
Proof.
  intros Hstore Hok. apply NamesToAddrs_ok in Hok as [Hne ->].
  split; [done |]. intros p Hp.
  apply generatePairs_elem in Hp as (set & addr & ip & Hm & _ & Hparse & Htag).
  split; [| by exists addr, ip].
  eapply nameAddrMap_keys; [exact Hstore | by eexists].
Qed.

End Facts.

(** * Further properties of the read path *)

Section ReadPath.
Context {netip : NetIP} {strset : StringSet}.

(** ** The cutoff *)

Lemma Every_bind {A B : Type} P (m : Prog A) (f : A → Prog B) :
  Every P m → (∀ a, Every P (f a)) → Every P (m ≫= f).
Proof.
  intros Hm Hf. induction Hm; unfold mbind, Prog_bind in *; simpl;
    [apply Hf | constructor; auto ..].
Qed.

Lemma Every_trace {A : Type} P (db : Store) (p : Prog A) (s : St db) :
  Every P p → ∀ e, e ∈ trace db p s → P e.
Proof.
  intros Hp. revert s.
  induction Hp as [a|t c k HP _ IH|i c k HP _ IH|x c ts k HP _ IH
                  |q rel d k HP _ IH]; intros s e.
  - by intros ?%elem_of_nil.
  - rewrite trace_FindByContent. intros [->|He]%elem_of_cons; eauto.
  - rewrite trace_FindById. intros [->|He]%elem_of_cons; eauto.
  - rewrite trace_OutgoingRelations. intros [->|He]%elem_of_cons; eauto.
  - unfold trace. simpl. destruct (create db s q rel d) as [s0 r] eqn:E.
    specialize (IH r s0 e). unfold trace in IH.
    destruct (run db (k r) s0) as [[a s1] t1]. simpl in *.
    intros [->|He]%elem_of_cons; eauto.
Qed.

Lemma findNames_since since names filter fqdns :
  Every (λ e, sinceOf e = Some since) (findNames since names filter fqdns).
Proof.
  revert filter fqdns. induction names as [|name rest IH]; intros; simpl.
  - constructor.
  - case_decide; [apply IH |]. constructor; [done |].
    intros [[|a0 l]|e]; apply IH.
Qed.

Lemma followFirst_since since rels cur :
  Every (λ e, sinceOf e = Some since) (followFirst since rels cur).
Proof.
  induction rels as [|rel rest IH]; simpl; constructor; [done |].
  intros [found|e]; [constructor | apply IH].
Qed.

Lemma chainLoop_since fuel since i cur :
  Every (λ e, sinceOf e = Some since) (chainLoop fuel since i cur).
Proof.
  revert i cur. induction fuel as [|fuel IH]; intros; cbn [chainLoop];
    [constructor |].
  destruct (i <=? 10); [| constructor]. constructor; [done |].
  intros [[|rel rels]|e]; lazy beta iota; [constructor | | constructor].
  apply Every_bind; [apply followFirst_since | intros; apply IH].
Qed.

Lemma buildTargets_since since fqdns targets :
  Every (λ e, sinceOf e = Some since) (buildTargets since fqdns targets).
Proof.
  revert targets. induction fqdns as [|a rest IH]; intros; cbn [buildTargets].
  - constructor.
  - destruct (Content a); [| apply IH ..].
    apply Every_bind; [apply chainLoop_since | intros; apply IH].
Qed.

Lemma addrLoop_since since name rels m :
  Every (λ e, sinceOf e = Some since) (addrLoop since name rels m).
Proof.
  revert m. induction rels as [|rel rest IH]; intros; simpl; constructor;
    [done |].
  intros [found|e]; [destruct (Content found) |]; apply IH.
Qed.

Lemma aggregate_since since targets m :
  Every (λ e, sinceOf e = Some since) (aggregate since targets m).
Proof.
  revert m. induction targets as [|tar rest IH]; intros; cbn [aggregate];
    constructor; [done |].
  intros [[|rel rels]|e]; lazy beta iota; [apply IH | | apply IH].
  apply Every_bind; [apply addrLoop_since | intros; apply IH].
Qed.

(** The cutoff is threaded through the whole read path: whatever the
    store answers, every call that [NamesToAddrs] makes is a lookup that
    carries the cutoff it was given. *)
Theorem NamesToAddrs_cutoff (since : Z) (names : list string) :
  Every (λ e, sinceOf e = Some since) (NamesToAddrs since names) ∧
  ∀ (db : Store) (s : St db) e,
    e ∈ trace db (NamesToAddrs since names) s → sinceOf e = Some since.
Proof.
  assert (Hall : Every (λ e, sinceOf e = Some since)
                   (NamesToAddrs since names)).
  { unfold NamesToAddrs.
    apply Every_bind; [apply findNames_since | intros fqdns].
    destruct (_ =? _)%nat; [constructor |].
    apply Every_bind; [apply buildTargets_since | intros targets].
    destruct (_ =? _)%nat; [constructor |].
    apply Every_bind; [apply aggregate_since | intros m].
    destruct (_ =? _)%nat; [constructor |].
    destruct (length _ =? 0)%nat; constructor. }
  split; [exact Hall |]. intros db s. by apply Every_trace.
Qed.

(** ** Repeated names *)

Lemma findNames_fold db (s : St db) since names filter fqdns :
  value db (findNames since names filter fqdns) s =
    (foldl (findStep db s since) (filter, fqdns) names).2.
Proof.
  revert filter fqdns. induction names as [|name rest IH]; intros; simpl;
    [done |].
  unfold findStep at 2. simpl. case_decide; [apply IH |].
  rewrite value_FindByContent.
  destruct (findByContent db s _ since) as [[|a0 l]|e]; apply IH.
Qed.

Lemma findStep_settles db (s : St db) since st n :
  settled db s since (findStep db s since st n) n.
Proof.
  unfold settled, findStep, findable. case_decide; [by left |].
  destruct (findByContent db s _ since) as [[|a0 l]|e]; simpl; auto.
  left. apply elem_of_union_l. by apply elem_of_singleton.
Qed.

Lemma findStep_keeps db (s : St db) since st n m :
  settled db s since st n → settled db s since (findStep db s since st m) n.
Proof.
  intros [Hin|Hno]; [| by right]. left. unfold findStep.
  case_decide; [done |].
  destruct (findByContent db s _ since) as [[|a0 l]|e]; simpl; auto.
  by apply elem_of_union_r.
Qed.

Lemma findStep_skip db (s : St db) since st n :
  settled db s since st n → findStep db s since st n = st.
Proof.
  unfold settled, findStep, findable. intros [Hin|Hno]; case_decide; try done.
  by destruct (findByContent db s _ since) as [[|a0 l]|e].
Qed.

Lemma findFold_keeps db (s : St db) since st names n :
  settled db s since st n →
  settled db s since (foldl (findStep db s since) st names) n.
Proof.
  revert st. induction names as [|m rest IH]; intros st Hn; simpl; [done |].
  by apply IH, findStep_keeps.
Qed.

Lemma findFold_settles db (s : St db) since st names n :
  n ∈ names → settled db s since (foldl (findStep db s since) st names) n.
Proof.
  revert st. induction names as [|m rest IH]; intros st Hn; simpl.
  - by apply elem_of_nil in Hn.
  - apply elem_of_cons in Hn as [->|Hn]; [| by apply IH].
    apply findFold_keeps, findStep_settles.
Qed.

Lemma findFold_skip db (s : St db) since st extra :
  (∀ n, n ∈ extra → settled db s since st n) →
  foldl (findStep db s since) st extra = st.
Proof.
  induction extra as [|n rest IH]; intros Hall; simpl; [done |].
  rewrite findStep_skip by (apply Hall; by left).
  apply IH. intros m Hm. apply Hall. by right.
Qed.

(** Names given again change nothing: when every name of [extra] occurs
    in [names], [NamesToAddrs] returns for [names ++ extra] what it
    returns for [names]. *)
Theorem NamesToAddrs_repeated_names (db : Store) (s : St db) (since : Z)
    (names extra : list string) :
  (∀ n, n ∈ extra → n ∈ names) →
  value db (NamesToAddrs since (names ++ extra)) s =
  value db (NamesToAddrs since names) s.
Proof.
  intros Hsub. rewrite !NamesToAddrs_value.
  assert (Hf : value db (findNames since (names ++ extra) ∅ []) s =
               value db (findNames since names ∅ []) s).
  { rewrite !findNames_fold, foldl_app. f_equal.
    apply findFold_skip. intros n Hn. by apply findFold_settles, Hsub. }
  by rewrite Hf.
Qed.

(** ** The number of calls *)








End ReadPath.

(** * Properties of the plugins *)

Section SiteDossierFacts.
Context {netip : NetIP} {gostr : GoStrings} {Queue : Type}.
Variable WhichDomain : string → string.
Variable CheckTransformations : string → string → string → perror + (string → bool).
Variable RequestWebPage : string → string + string.
Variable ScrapeSubdomainNames : string → list string.
Variable IsDomainInScope : string → bool.
Variable AppendToDBQueue : Prog (option (string * Asset)) → Queue → Queue.

(** The names that page [j] of [domlt] gives: none when the fetch fails. *)
Let pageNames (domlt : string) (j : Z) : list string :=
  match RequestWebPage (SiteDossier.url domlt j) with
  | inr body =>
      List.filter (keeps IsDomainInScope)
        (normalize <$> ScrapeSubdomainNames body)
  | inl _ => []
  end.

Lemma pages_queue fuel domlt i (queue : Queue) :
  (Z.to_nat (20 - i) ≤ fuel)%nat →
  SiteDossier.pages RequestWebPage ScrapeSubdomainNames IsDomainInScope
    AppendToDBQueue fuel domlt i queue =
  foldl (λ q n, AppendToDBQueue (callback n) q) queue
    (seqZ i (20 - i) ≫= pageNames domlt).
Proof.
  revert i queue. induction fuel as [|fuel IH]; intros i queue Hfuel.
  - by rewrite seqZ_nil by lia.
  - cbn [SiteDossier.pages]. destruct (Z.ltb_spec i 20) as [Hi|Hi].
    2:{ by rewrite seqZ_nil by lia. }
    rewrite (seqZ_cons i) by lia. rewrite bind_cons, foldl_app.
    replace (Z.succ i) with (i + 1) by lia.
    replace (Z.pred (20 - i)) with (20 - (i + 1)) by lia.
    unfold pageNames at 1, SiteDossier.query.
    destruct (RequestWebPage (SiteDossier.url domlt i)) as [err|body].
    + by rewrite IH by lia.
    + rewrite IH by lia. unfold process.
      by rewrite processNames_queue.
Qed.

(** What [check] of sitedossier hands to the queue.  For an event that
    holds a name whose normal form is its own root domain, under a
    configuration that lets the plugin run, [check] returns no error and
    calls [support.AppendToDBQueue] once, in this order, for every name
    scraped from pages 1 to 19 of that domain whose normal form is not
    empty and is in scope.  A page that cannot be fetched gives no call
    and stops nothing.  The closure handed over, when it is run, makes
    one [Create] call, for a name asset (no parent, no relation) of that
    normal form, and dispatches an event exactly when the call
    succeeds. *)
Theorem sitedossier_check_creates (f : FQDN) (matches : string → bool)
    (queue : Queue) :
  let domlt := normalize (Name f) in
  WhichDomain domlt = domlt →
  CheckTransformations "fqdn" "fqdn" "sitedossier" = inr matches →
  matches "fqdn" = true →
  SiteDossier.check WhichDomain CheckTransformations RequestWebPage
    ScrapeSubdomainNames IsDomainInScope AppendToDBQueue (OFQDN f) queue =
    (None,
     foldl (λ q n, AppendToDBQueue (callback n) q) queue
       (seqZ 1 19 ≫= λ j,
          match RequestWebPage (SiteDossier.url domlt j) with
          | inr body =>
              List.filter (keeps IsDomainInScope)
                (normalize <$> ScrapeSubdomainNames body)
          | inl _ => []
          end)) ∧
  ∀ n (db : Store) (s : St db),
    run db (callback n) s =
      (let '(s', r) :=
         create db s None "" (Some (OFQDN {| Name := n |})) in
       (match r with Ok a => Some (n, a) | Err _ => None end, s',
        [ECreate None "" (Some (OFQDN {| Name := n |})) r])).
Proof.
  intros domlt Hdom Hct Hm. split; [| apply callback_run].
  unfold SiteDossier.check. fold domlt.
  rewrite Hdom, String.eqb_refl, Hct, Hm. cbn [negb].
  by rewrite pages_queue by (simpl; lia).
Qed.

(** When [check] of sitedossier fails and when it leaves the queue
    alone.  It returns an error in two cases only: the event holds no
    name (the error says so), or the configuration fails for a name that
    is its own root domain (that error is returned as it is); a failed
    fetch is never an error.  Unless the name is its own root domain and
    the configuration matches, it hands nothing to the queue. *)
Theorem sitedossier_check_outcome (content : OAMAsset) (queue : Queue) :
  let c := SiteDossier.check WhichDomain CheckTransformations RequestWebPage
             ScrapeSubdomainNames IsDomainInScope AppendToDBQueue
             content queue in
  (∀ err, c.1 = Some err ↔
     (isFQDN content = false ∧
      err = PNew "failed to extract the FQDN asset") ∨
     (∃ f, content = OFQDN f ∧
           WhichDomain (normalize (Name f)) = normalize (Name f) ∧
           CheckTransformations "fqdn" "fqdn" "sitedossier" = inl err)) ∧
  ((∀ f matches, content = OFQDN f →
      WhichDomain (normalize (Name f)) = normalize (Name f) →
      CheckTransformations "fqdn" "fqdn" "sitedossier" = inr matches →
      matches "fqdn" = false) →
   c.2 = queue).
Proof.
  intros c. unfold c, SiteDossier.check.
  destruct content as [f|a|k]; cbn [isFQDN].
  2,3: split; [intros err; simpl; split;
                 [intros [= <-]; by left
                 | intros [[_ ->]|(f & ? & _)]; done]
              | done].
  cbv zeta.
  destruct (String.eqb_spec (WhichDomain (normalize (Name f)))
              (normalize (Name f))) as [Hd|Hd]; cbn [negb].
  2:{ split; [| done]. intros err. simpl. split; [done |].
      intros [[? _]|(f' & [= <-] & ? & _)]; done. }
  destruct (CheckTransformations "fqdn" "fqdn" "sitedossier")
    as [e|matches] eqn:Hct.
  { split; [| done]. intros err. simpl. split.
    - intros [= <-]. right. by exists f.
    - intros [[? _]|(f' & [= <-] & _ & [= <-])]; done. }
  destruct (matches "fqdn") eqn:Hm; cbn [negb].
  2:{ split; [| done]. intros err. simpl. split; [done |].
      intros [[? _]|(f' & [= <-] & _ & ?)]; done. }
  split.
  - intros err. simpl. split; [done |].
    intros [[? _]|(f' & [= <-] & _ & ?)]; done.
  - intros Hgate. specialize (Hgate f matches eq_refl Hd eq_refl). congruence.
Qed.

End SiteDossierFacts.

Section WaybackFacts.
Context {netip : NetIP} {strset : StringSet} {gostr : GoStrings}.
Variable WhichDomain : string → string.
Variable CheckTransformations : string → string → string → perror + (string → bool).
Variable RequestWebPage : string → string + string.
Variable IsDomainInScope : string → bool.
Variable Unmarshal : string → option (list (list string)).
Variable FindString : string → string.

Lemma collect_elem urls (acc : gset string) n :
  n ∈ Wayback.collect FindString urls acc ↔
  n ∈ acc ∨ ∃ u, [u] ∈ urls ∧ FindString u ≠ "" ∧ n = setKey (FindString u).
Proof.
  revert acc. induction urls as [|url rest IH]; intros acc;
    cbn [Wayback.collect].
  - split; [by left |]. intros [?|(u & ?%elem_of_nil & _)]; done.
  - assert (Hskip : (∀ u, url = [u] → FindString u = "") →
      (n ∈ acc ∨ (∃ u, [u] ∈ rest ∧ FindString u ≠ "" ∧
                       n = setKey (FindString u))) ↔
      (n ∈ acc ∨ (∃ u, [u] ∈ url :: rest ∧ FindString u ≠ "" ∧
                       n = setKey (FindString u)))).
    { intros Hno. split; intros [?|(u & Hu & Hne & Hn)]; auto; right.
      - exists u. split; [by right | done].
      - apply elem_of_cons in Hu as [Hu|Hu]; [| by exists u].
        by destruct Hne, (Hno u). }
    destruct url as [|u [|u' url]].
    + rewrite IH. apply Hskip. by intros u.
    + cbv zeta. destruct (String.eqb_spec (FindString u) "") as [He|Hne];
        cbn [negb].
      * rewrite IH. apply Hskip. by intros u0 [= <-].
      * rewrite IH, elem_of_union, elem_of_singleton. split.
        -- intros [[->|?]|(u0 & Hu & ?)]; auto; right.
           ++ exists u. split; [by left | done].
           ++ exists u0. split; [by right | done].
        -- intros [?|(u0 & Hu & Hne0 & ->)]; auto.
           apply elem_of_cons in Hu as [[= ->]|Hu]; [by left; left |].
           right. by exists u0.
    + rewrite IH. apply Hskip. by intros u0.
Qed.

(** What [process] of wayback returns.  The list has no name twice; a
    name is in it exactly when the records decode and some row of
    exactly one text has a sub-domain match that is not empty, the name
    being that match as the string set holds it.  Records that do not
    decode give the empty list, and rows of another length give
    nothing. *)
Theorem wayback_process_names (records : string) :
  NoDup (Wayback.process Unmarshal FindString records) ∧
  (∀ n, n ∈ Wayback.process Unmarshal FindString records ↔
     ∃ urls u, Unmarshal records = Some urls ∧ [u] ∈ urls ∧
               FindString u ≠ "" ∧ n = setKey (FindString u)) ∧
  (Unmarshal records = None →
     Wayback.process Unmarshal FindString records = []).
Proof.
  unfold Wayback.process. destruct (Unmarshal records) as [urls|].
  - split; [apply NoDup_elements |]. split; [| done].
    intros n. rewrite elem_of_elements, collect_elem. split.
    + intros [?%not_elem_of_empty|(u & ?)]; [done |]. by exists urls, u.
    + intros (urls' & u & [= <-] & ?). right. by exists u.
  - split; [constructor |]. split; [| done].
    intros n. split; [by intros ?%elem_of_nil |].
    by intros (urls & u & ? & _).
Qed.

Lemma submit_run subs dispatched (db : Store) (s : St db) :
  nameCreated <$> trace db (Wayback.submit IsDomainInScope subs dispatched) s
    = Some <$> List.filter IsDomainInScope subs ∧
  value db (Wayback.submit IsDomainInScope subs dispatched) s =
    dispatched
    ++ omap nameStored
         (trace db (Wayback.submit IsDomainInScope subs dispatched) s).
Proof.
  revert dispatched s. induction subs as [|n rest IH]; intros dispatched s;
    cbn [Wayback.submit List.filter].
  - unfold value, trace. simpl. by rewrite app_nil_r.
  - destruct (IsDomainInScope n); cbn [negb]; [| apply IH].
    unfold value, trace. simpl.
    destruct (create db s None "" _) as [s1 [a|e]].
    + destruct (IH (dispatched ++ [(n, a)]) s1) as [IH1 IH2].
      unfold value, trace in IH1, IH2.
      destruct (run db _ s1) as [[v s2] tr]. simpl in *.
      split; [f_equal; exact IH1 |].
      rewrite IH2, <- app_assoc. reflexivity.
    + destruct (IH dispatched s1) as [IH1 IH2].
      unfold value, trace in IH1, IH2.
      destruct (run db _ s1) as [[v s2] tr]. simpl in *.
      split; [f_equal; exact IH1 | exact IH2].
Qed.

(** What [submit] of wayback does with a list of names.  Its calls are,
    in order, one [Create] of a name asset (no parent, no relation) for
    each name of the list that is in scope, the name as given; nothing is
    created for a name out of scope.  An event is dispatched exactly for
    the [Create] calls that succeeded, in that order, with the name and
    the asset the store returned. *)
Theorem wayback_submit_dispatches (subs : list string) (db : Store)
    (s : St db) :
  nameCreated <$> trace db (Wayback.submit IsDomainInScope subs []) s
    = Some <$> List.filter IsDomainInScope subs ∧
  value db (Wayback.submit IsDomainInScope subs []) s =
    omap nameStored (trace db (Wayback.submit IsDomainInScope subs []) s).
Proof. apply (submit_run subs [] db s). Qed.

Lemma wayback_check_run (content : OAMAsset) (db : Store) (s : St db) :
  run db (Wayback.check WhichDomain CheckTransformations RequestWebPage
            IsDomainInScope Unmarshal FindString content) s =
  match content with
  | OFQDN f =>
      let domlt := normalize (Name f) in
      if negb (String.eqb (WhichDomain domlt) domlt) then ((None, []), s, [])
      else
        match CheckTransformations "fqdn" "fqdn" "wayback" with
        | inl err => ((Some err, []), s, [])
        | inr matches =>
            if negb (matches "fqdn") then ((None, []), s, [])
            else
              match RequestWebPage (Wayback.URL +:+ domlt) with
              | inl cause => ((Some (PFetch cause), []), s, [])
              | inr records =>
                  let p := Wayback.submit IsDomainInScope
                             (Wayback.process Unmarshal FindString records)
                             [] in
                  ((None, value db p s), final db p s, trace db p s)
              end
        end
  | _ => ((Some (PNew "failed to extract the FQDN asset"), []), s, [])
  end.
Proof.
  unfold Wayback.check, Wayback.query. destruct content as [f|a|k]; try done.
  cbv zeta. destruct (negb _); [done |].
  destruct (CheckTransformations _ _ _) as [e|matches]; [done |].
  destruct (negb _); [done |].
  destruct (RequestWebPage _) as [cause|records]; [done |].
  rewrite run_bind_eta. unfold value at 1, final at 1, trace at 2. simpl.
  by rewrite app_nil_r.
Qed.

(** How [check] of wayback ends.  It returns an error in three cases
    only: the event holds no name; the configuration fails for a name
    that is its own root domain (that error, as it is); or, the
    configuration matching, the fetch of the records fails (the error of
    the fetch, wrapped).  In each of these cases, and when the name is
    not its own root domain or the configuration does not match, it
    makes no store call and dispatches nothing.  Otherwise its calls are
    the [Create] calls of [submit] on the names that [process] draws from
    the records fetched for the normal form of the name, and it
    dispatches what [submit] dispatches. *)
Theorem wayback_check_outcome (content : OAMAsset) (db : Store) (s : St db) :
  let c := Wayback.check WhichDomain CheckTransformations RequestWebPage
             IsDomainInScope Unmarshal FindString content in
  (∀ err, (value db c s).1 = Some err ↔
     (isFQDN content = false ∧
      err = PNew "failed to extract the FQDN asset") ∨
     (∃ f, content = OFQDN f ∧
           WhichDomain (normalize (Name f)) = normalize (Name f) ∧
           CheckTransformations "fqdn" "fqdn" "wayback" = inl err) ∨
     (∃ f matches cause, content = OFQDN f ∧
           WhichDomain (normalize (Name f)) = normalize (Name f) ∧
           CheckTransformations "fqdn" "fqdn" "wayback" = inr matches ∧
           matches "fqdn" = true ∧
           RequestWebPage (Wayback.URL +:+ normalize (Name f)) = inl cause ∧
           err = PFetch cause)) ∧
  ((∀ f matches records, content = OFQDN f →
      WhichDomain (normalize (Name f)) = normalize (Name f) →
      CheckTransformations "fqdn" "fqdn" "wayback" = inr matches →
      matches "fqdn" = true →
      RequestWebPage (Wayback.URL +:+ normalize (Name f)) = inr records →
      False) →
   trace db c s = [] ∧ final db c s = s ∧ (value db c s).2 = []) ∧
  (∀ f matches records, content = OFQDN f →
      WhichDomain (normalize (Name f)) = normalize (Name f) →
      CheckTransformations "fqdn" "fqdn" "wayback" = inr matches →
      matches "fqdn" = true →
      RequestWebPage (Wayback.URL +:+ normalize (Name f)) = inr records →
      (value db c s).1 = None ∧
      nameCreated <$> trace db c s =
        Some <$> List.filter IsDomainInScope
                   (Wayback.process Unmarshal FindString records) ∧
      (value db c s).2 = omap nameStored (trace db c s)).
Proof.
  intros c. unfold value, trace, final, c. rewrite wayback_check_run.
  destruct content as [f|a|k]; cbn [isFQDN].
  2,3: split; [| split];
    [ intros err; cbn [fst snd]; split;
      [ intros [= <-]; by left
      | intros [[_ ->]|[(f & ? & _)|(f & ? & ? & ? & _)]]; done ]
    | done
    | by intros f ? ? ? ].
  cbv zeta.
  destruct (String.eqb_spec (WhichDomain (normalize (Name f)))
              (normalize (Name f))) as [Hd|Hd]; cbn [negb].
  2:{ split; [| split]; [| done |].
      - intros err. cbn [fst snd]. split; [done |].
        intros [[? _]|[(f' & [= <-] & ? & _)|(f' & ? & ? & [= <-] & ? & _)]];
          done.
      - by intros f' ? ? [= <-] ?. }
  destruct (CheckTransformations "fqdn" "fqdn" "wayback")
    as [e|matches] eqn:Hct.
  { split; [| split]; [| done |].
    - intros err. cbn [fst snd]. split.
      + intros [= <-]. right. left. by exists f.
      + intros [[? _]|[(f' & [= <-] & _ & [= <-])
                      |(f' & ? & ? & [= <-] & _ & ? & _)]]; done.
    - by intros f' ? ? [= <-] _ ?. }
  destruct (matches "fqdn") eqn:Hm; cbn [negb].
  2:{ split; [| split]; [| done |].
      - intros err. cbn [fst snd]. split; [done |].
        intros [[? _]|[(f' & [= <-] & _ & ?)
                      |(f' & m & ? & [= <-] & _ & [= <-] & ? & _)]];
          congruence.
      - intros f' m ? [= <-] _ [= <-]. congruence. }
  destruct (RequestWebPage (Wayback.URL +:+ normalize (Name f)))
    as [cause|records] eqn:Hq.
  { split; [| split]; [| done |].
    - intros err. cbn [fst snd]. split.
      + intros [= <-]. right. right. by exists f, matches, cause.
      + intros [[? _]|[(f' & [= <-] & _ & ?)
                      |(f' & m & c' & [= <-] & _ & _ & _ & Hq' & ->)]];
          [done | done | congruence].
    - intros f' m r' [= <-] _ _ _ Hq'. congruence. }
  destruct (submit_run (Wayback.process Unmarshal FindString records) []
              db s) as [S1 S2].
  cbn [fst snd]. split; [| split].
  - intros err. split; [done |].
    intros [[? _]|[(f' & [= <-] & _ & ?)
                  |(f' & m & c' & [= <-] & _ & _ & _ & Hq' & _)]];
      [done | done | congruence].
  - intros Hgate. by destruct (Hgate f matches records).
  - intros f' m r' [= <-] _ _ _ Hq'. rewrite Hq in Hq'.
    injection Hq' as <-. done.
Qed.

End WaybackFacts.

(** * Examples on the in-memory store *)

Section Examples.
#[local] Existing Instance tNetIP.
#[local] Existing Instance tStringSet.
#[local] Existing Instance tGoStrings.

(** A chain of fifteen aliases is left after ten hops, at [n10]; the
    address found is the one below [n10]. *)
Example longChain_stops_at_ten :
  value memStore (aliasChain 0 (nameAsset 0)) longChain = nameAsset 10 ∧
  countIf isOutgoing (trace memStore (aliasChain 0 (nameAsset 0)) longChain)
    = 10%nat ∧
  value memStore (NamesToAddrs 0 [nameOf 0]) longChain =
    Ok [{| PairFQDN := {| Name := nameOf 0 |};
           PairAddr := {| Address := TAddr false "10.0.0.1";
                          Type_ := "IPv4" |} |}].
Proof. repeat split; vm_compute; reflexivity. Qed.

(** A cycle of three is walked for ten hops and left at [n1]. *)
Example cycle3_terminates :
  value memStore (aliasChain 0 (nameAsset 0)) cycle3 = nameAsset 1 ∧
  countIf isOutgoing (trace memStore (aliasChain 0 (nameAsset 0)) cycle3)
    = 10%nat ∧
  value memStore (NamesToAddrs 0 [nameOf 0]) cycle3 = Err errNoPairs.
Proof. repeat split; vm_compute; reflexivity. Qed.

(** The first hop asks for both types, the second for CNAME only. *)
Example twins_hops :
  trace memStore (aliasChain 0 (nameAsset 0)) twins =
    [EOutgoingRelations (nameAsset 0) 0 ["cname_record"; "srv_record"]
       (Ok [{| RelType := "cname_record"; FromAsset := nameAsset 0;
               ToAsset := nameAsset 1 |}]);
     EFindById (ID (nameAsset 1)) 0 (Ok (nameAsset 1));
     EOutgoingRelations (nameAsset 1) 0 ["cname_record"] (Ok [])].
Proof. repeat split; vm_compute; reflexivity. Qed.

(** Two edges to assets with one address, asked under the alias [n0]:
    the address is held once, under [n0]. *)
Example twins_combos :
  combos (value memStore
            (aggregate 0 [{| fqdn := {| Name := nameOf 0 |};
                             asset := nameAsset 1 |}] ∅) twins) =
    [(nameOf 0, "10.0.0.1"); (nameOf 0, "10.0.0.2")] ∧
  value memStore (buildTargets 0 [nameAsset 0] []) twins =
    [{| fqdn := {| Name := nameOf 0 |}; asset := nameAsset 1 |}].
Proof. repeat split; vm_compute; reflexivity. Qed.

(** An edge to an asset that is not there is looked up at every hop. *)
Example dangling_is_asked_ten_times :
  value memStore (aliasChain 0 (nameAsset 0)) dangling = nameAsset 0 ∧
  trace memStore (aliasChain 0 (nameAsset 0)) dangling =
    EOutgoingRelations (nameAsset 0) 0 ["cname_record"; "srv_record"]
      (Ok [{| RelType := "cname_record"; FromAsset := nameAsset 0;
              ToAsset := nameAsset 1 |}])
    :: EFindById (ID (nameAsset 1)) 0 (Err (StoreError "asset not found"))
    :: mjoin (replicate 9
         [EOutgoingRelations (nameAsset 0) 0 ["cname_record"]
            (Ok [{| RelType := "cname_record"; FromAsset := nameAsset 0;
                    ToAsset := nameAsset 1 |}]);
          EFindById (ID (nameAsset 1)) 0
            (Err (StoreError "asset not found"))]).
Proof. repeat split; vm_compute; reflexivity. Qed.

(** Witness of [UpsertAddress_unparsed_calls_Create]. *)
Lemma UpsertAddress_not_an_ip :
  ParseAddr "not-an-ip" = None ∧
  run memStore (UpsertAddress "not-an-ip") emptyMem =
    (Err (StoreError "nil asset"), emptyMem,
     [ECreate None "" None (Err (StoreError "nil asset"))]).
Proof.
  split; [reflexivity |].
  exact (UpsertAddress_unparsed_calls_Create memStore emptyMem "not-an-ip"
           eq_refl).
Defined.

(** Witness of [upsert_keeps_name_on_bad_address]. *)
Lemma UpsertA_not_an_ip :
  let name := {| ID := "#"; Content := OFQDN {| Name := "a.example.com" |} |} in
  let left_ := {| assets := [name]; edges := []; clock := 1 |} in
  let calls := [ECreate None "" (Some (OFQDN {| Name := "a.example.com" |}))
                  (Ok name)] in
  ParseAddr "not-an-ip" = None ∧
  run memStore (UpsertA specUpsertFQDN "a.example.com" "not-an-ip") emptyMem
    = (Err errBuild, left_, calls) ∧
  run memStore (UpsertAAAA specUpsertFQDN "a.example.com" "not-an-ip") emptyMem
    = (Err errBuild, left_, calls).
Proof.
  split; [reflexivity |].
  exact (upsert_keeps_name_on_bad_address specUpsertFQDN memStore emptyMem
           "a.example.com" "not-an-ip" _ eq_refl eq_refl).
Defined.

(** Witness of [aggregation_keyed_by_origin]. *)
Lemma twins_keyed_by_origin :
  let m := value memStore
             (aggregate 0
                (value memStore
                   (buildTargets 0
                      (value memStore (findNames 0 [nameOf 0] ∅ []) twins) [])
                   twins) ∅) twins in
  (∀ n a l, n ∈ [nameOf 0] →
     findByContent memStore twins (OFQDN {| Name := n |}) 0 = Ok (a :: l) →
     Content a = OFQDN {| Name := n |}) ∧
  (∀ name, is_Some (m !! name) → name ∈ [nameOf 0]) ∧
  NoDup (combos m).
Proof.
  assert (Hstore : ∀ n a l, n ∈ [nameOf 0] →
     findByContent memStore twins (OFQDN {| Name := n |}) 0 = Ok (a :: l) →
     Content a = OFQDN {| Name := n |}).
  { intros n a l Hn. apply list_elem_of_singleton in Hn. subst n.
    vm_compute. intros [= <- _]. reflexivity. }
  split; [exact Hstore |].
  destruct (aggregation_keyed_by_origin memStore twins 0 [nameOf 0] Hstore)
    as (Hkeys & _ & Hnodup).
  split; [exact Hkeys | exact Hnodup].
Defined.

(** Witness of [upsert_record_creates_edge]. *)
Lemma UpsertA_example_com :
  let name := {| ID := "#"; Content := OFQDN {| Name := "a.example.com" |} |} in
  let ip := {| Address := TAddr false "93.184.216.34"; Type_ := "IPv4" |} in
  let addr := {| ID := "i#"; Content := OIPAddress ip |} in
  buildIPAddress "93.184.216.34" = Some ip ∧
  run memStore (UpsertA specUpsertFQDN "a.example.com" "93.184.216.34")
      emptyMem =
    (Ok addr,
     {| assets := [name; addr];
        edges := [(1, {| RelType := "a_record"; FromAsset := name;
                         ToAsset := addr |})];
        clock := 2 |},
     [ECreate None "" (Some (OFQDN {| Name := "a.example.com" |})) (Ok name);
      ECreate (Some name) "a_record" (Some (OIPAddress ip)) (Ok addr)]).
Proof.
  split; [reflexivity |].
  exact (proj1 (upsert_record_creates_edge specUpsertFQDN memStore emptyMem
                  "a.example.com" "93.184.216.34" _ _ eq_refl eq_refl)).
Defined.

(** Witness of [NamesToAddrs_pairs_sound]. *)
Lemma twins_pairs_sound :
  let ps := [{| PairFQDN := {| Name := nameOf 0 |};
                PairAddr := {| Address := TAddr false "10.0.0.1";
                               Type_ := "IPv4" |} |};
             {| PairFQDN := {| Name := nameOf 0 |};
                PairAddr := {| Address := TAddr false "10.0.0.2";
                               Type_ := "IPv4" |} |}] in
  value memStore (NamesToAddrs 0 [nameOf 0]) twins = Ok ps ∧
  ∀ p, p ∈ ps →
    Name (PairFQDN p) ∈ [nameOf 0] ∧
    ∃ addr ip, ParseAddr addr = Some ip ∧ PairAddr p = tagAddress ip.
Proof.
  assert (Hstore : ∀ n a l, n ∈ [nameOf 0] →
     findByContent memStore twins (OFQDN {| Name := n |}) 0 = Ok (a :: l) →
     Content a = OFQDN {| Name := n |}).
  { intros n a l Hn. apply list_elem_of_singleton in Hn. subst n.
    vm_compute. intros [= <- _]. reflexivity. }
  split; [vm_compute; reflexivity |].
  assert (Hrun : value memStore (NamesToAddrs 0 [nameOf 0]) twins =
    Ok [{| PairFQDN := {| Name := nameOf 0 |};
           PairAddr := {| Address := TAddr false "10.0.0.1";
                          Type_ := "IPv4" |} |};
        {| PairFQDN := {| Name := nameOf 0 |};
           PairAddr := {| Address := TAddr false "10.0.0.2";
                          Type_ := "IPv4" |} |}]).
  { vm_compute. reflexivity. }
  exact (proj2 (NamesToAddrs_pairs_sound memStore twins 0 [nameOf 0] _
                  Hstore Hrun)).
Defined.


(** Counterexample to C8: a store error is not passed on.  The lookup
    fails with the store's error; [NamesToAddrs] answers "no names to
    query". *)
Lemma store_error_is_swallowed :
  run downStore (NamesToAddrs 0 ["a.example.com"]) tt =
    (Err (errors_New "no names to query"), tt,
     [EFindByContent (OFQDN {| Name := "a.example.com" |}) 0
        (Err (StoreError "store is down"))]) ∧
  errors_New "no names to query" ≠ StoreError "store is down".
Proof. split; [vm_compute; reflexivity | discriminate]. Qed.

(** Witness of [NamesToAddrs_repeated_names]. *)
Lemma twins_repeated_names :
  (∀ n, n ∈ [nameOf 0] → n ∈ [nameOf 0; nameOf 1]) ∧
  value memStore (NamesToAddrs 0 ([nameOf 0; nameOf 1] ++ [nameOf 0])) twins =
  value memStore (NamesToAddrs 0 [nameOf 0; nameOf 1]) twins.
Proof.
  assert (Hsub : ∀ n, n ∈ [nameOf 0] → n ∈ [nameOf 0; nameOf 1]).
  { intros n Hn. apply list_elem_of_singleton in Hn. subst n. left. }
  split; [exact Hsub |].
  exact (NamesToAddrs_repeated_names memStore twins 0 _ _ Hsub).
Defined.

(** Witness of [sitedossier_check_creates], with a queue that keeps
    what it is handed in the order of the calls: of the three names on
    the one page that can be fetched, one is in scope. *)
Lemma sitedossier_example_com :
  tWhichDomain (normalize " Example.COM") = normalize " Example.COM" ∧
  SiteDossier.check tWhichDomain tCheckTransformations tRequestWebPage
    tScrapeSubdomainNames tIsDomainInScope tAppendToDBQueue
    (OFQDN {| Name := " Example.COM" |}) [] =
    (None, [callback "www.example.com"]).
Proof.
  split; [reflexivity |].
  etransitivity;
    [exact (proj1 (sitedossier_check_creates tWhichDomain
              tCheckTransformations tRequestWebPage tScrapeSubdomainNames
              tIsDomainInScope tAppendToDBQueue
              {| Name := " Example.COM" |} (λ _, true) []
              eq_refl eq_refl eq_refl)) |].
  vm_compute. reflexivity.
Defined.

(** The records hold the same host twice, in two spellings, a host out
    of scope, a row of two texts and a row without a host: one name is
    created and dispatched. *)
Example wayback_example_com :
  Wayback.process tUnmarshal tFindString "records"
    = ["other.org"; "www.example.com"] ∧
  run memStore
      (Wayback.check tWhichDomain tCheckTransformations tRequestWebPage
         tIsDomainInScope tUnmarshal tFindString
         (OFQDN {| Name := "Example.com " |})) emptyMem =
    let a := {| ID := "#"; Content := OFQDN {| Name := "www.example.com" |} |} in
    ((None, [("www.example.com", a)]),
     {| assets := [a]; edges := []; clock := 1 |},
     [ECreate None "" (Some (OFQDN {| Name := "www.example.com" |})) (Ok a)]).
Proof. repeat split; vm_compute; reflexivity. Qed.

End Examples.
